(** * Pie Noon core: ranges, cubic curves and the asynchronous loader

    A shallow embedding of three pieces of the runtime of the game:

    - [Range]: [RangeT<T>] of [motive/math/range.h] (intervals, clamping,
      modular normalisation and modular differences, intersection);
    - [Curve]: [CubicCurve] of [motive/math/curve.h];
    - [AsyncLoader]: the loader of [async_loader.cpp], as a transition
      system over atomic steps of the calling thread and of the worker.

    Beside these, [Quadratic] holds [QuadraticCurve] of the same header,
    [Utilities] the string helpers of [utilities.cpp] and [Controllers]
    the controller list of [PieNoonGame].

    The first part holds the program, one module per piece; the second
    part holds the theorems, in the modules [RangeFacts], [CurveFacts],
    [QuadraticFacts], [AsyncLoaderFacts], [UtilitiesFacts] and
    [ControllersFacts].

    Scalars.  The C++ code computes on [float].  The embedding computes on
    exact rationals [Q]: every operation the code performs ([+], [-], [*],
    [/], [floor], comparisons) is the exact one, so the theorems below are
    statements about the arithmetic the code performs up to rounding.
    Equality of scalars is [Qeq], written [==]. *)

From Stdlib Require Import QArith Qround Qabs Qminmax Lqa.
From Stdlib Require Import String ZArith Lia List Bool Arith.
Import ListNotations.

(** * The program *)

(** ** Scalar helpers *)

Module Scalar.
Local Open Scope Q_scope.

(** [a < b] on scalars, as a boolean. *)
Definition Qlt_bool (a b : Q) : bool := negb (Qle_bool b a).

(** [std::max(a, b)] is [(a < b) ? b : a]; [std::min(a, b)] is
    [(b < a) ? b : a]. *)
Definition std_max (a b : Q) : Q := if Qlt_bool a b then b else a.
Definition std_min (a b : Q) : Q := if Qlt_bool b a then b else a.

(** Modelled from the spec: [mathfu::Clamp], which [RangeT::Clamp]
    delegates to, is not part of the sources at hand.  The spec says that
    [Clamp(x)] projects [x] into [[start, end]]; the source comment on
    [RangeT::Clamp] says it returns [x] if it is within the range and
    otherwise the closer of the two bounds.  This is the usual
    [max(lower, min(x, upper))]. *)
Definition mathfu_Clamp (x lower upper : Q) : Q :=
  std_max lower (std_min x upper).

End Scalar.

(** ** [RangeT] *)

Module Range.
Import Scalar.
Local Open Scope Q_scope.

Inductive ModularDirection : Set :=
| kDirectionClosest
| kDirectionFarthest
| kDirectionPositive
| kDirectionNegative
| kDirectionDirect.

Record RangeT : Set := mkRange { start_ : Q; end_ : Q }.

(** [assert(c)]: the computation continues only when [c] holds. *)
Definition assert (c : bool) : option unit := if c then Some tt else None.

Notation "x <- e ;; k" :=
  (match e with Some x => k | None => None end)
  (at level 61, e at next level, right associativity).

(** A range is valid if it contains at least one number. *)
Definition Valid (r : RangeT) : bool := Qle_bool (start_ r) (end_ r).


Definition Length (r : RangeT) : Q := end_ r - start_ r.

Definition Clamp (r : RangeT) (x : Q) : Q :=
  mathfu_Clamp x (start_ r) (end_ r).

Definition ClampAfterStart (r : RangeT) (x : Q) : Q := std_max x (start_ r).

Definition ClampBeforeEnd (r : RangeT) (x : Q) : Q := std_min x (end_ r).

Definition DistanceFrom (r : RangeT) (x : Q) : Q := Qabs (x - Clamp r x).

(** [Length()] if [x] is below the range, [-Length()] if it is above, [0]
    inside; the assertion requires the adjusted value to land in
    [(start, end]]. *)
Definition ModularAdjustment (r : RangeT) (x : Q) : option Q :=
  let length := Length r in
  let adjustment :=
    if Qle_bool x (start_ r) then length
    else if Qlt_bool (end_ r) x then - length
    else 0 in
  _ <- assert (Qlt_bool (start_ r) (x + adjustment)
               && Qle_bool (x + adjustment) (end_ r)) ;;
  Some adjustment.

Definition Normalize (r : RangeT) (x : Q) : option Q :=
  adjustment <- ModularAdjustment r x ;;
  Some (x + adjustment).

Definition NormalizeWildValue (r : RangeT) (x : Q) : option Q :=
  let length := Length r in
  let units := (x - start_ r) / length in
  let whole_units := inject_Z (Qfloor units) in
  let close := x - whole_units * length in
  adjustment <- ModularAdjustment r close ;;
  let normalized := close + adjustment in
  Some normalized.

Definition ModDiffClose (r : RangeT) (a b : Q) : option Q :=
  Normalize r (b - a).

Definition ModDiffFar (r : RangeT) (a b : Q) : option Q :=
  let length := Length r in
  close <- ModDiffClose r a b ;;
  Some (if Qle_bool 0 close then close - length else close + length).

Definition ModDiffPositive (r : RangeT) (a b : Q) : option Q :=
  let length := Length r in
  close <- ModDiffClose r a b ;;
  Some (if Qle_bool 0 close then close else close + length).

Definition ModDiffNegative (r : RangeT) (a b : Q) : option Q :=
  let length := Length r in
  close <- ModDiffClose r a b ;;
  Some (if Qle_bool 0 close then close - length else close).

Definition ModDiff (r : RangeT) (a b : Q) (direction : ModularDirection)
  : option Q :=
  match direction with
  | kDirectionClosest => ModDiffClose r a b
  | kDirectionFarthest => ModDiffFar r a b
  | kDirectionPositive => ModDiffPositive r a b
  | kDirectionNegative => ModDiffNegative r a b
  | kDirectionDirect => Some (b - a)
  end.

Definition Contains (r : RangeT) (x : Q) : bool :=
  Qle_bool (start_ r) x && Qle_bool x (end_ r).

Definition Invert (r : RangeT) : RangeT := mkRange (end_ r) (start_ r).

(** [operator==]: strict equality of both bounds. *)
Definition RangeT_eqb (a b : RangeT) : bool :=
  Qeq_bool (start_ a) (start_ b) && Qeq_bool (end_ a) (end_ b).

Definition Intersect (a b : RangeT) : RangeT :=
  mkRange (std_max (start_ a) (start_ b)) (std_min (end_ a) (end_ b)).



(** A range of angles, in degrees. *)
Definition degrees : RangeT := mkRange (-180) 180.

(** *** The rest of [RangeT] *)




Definition Include (r : RangeT) (x : Q) : RangeT :=
  mkRange (std_min (start_ r) x) (std_max (end_ r) x).


Definition CreateValidRange (a b : Q) : RangeT :=
  mkRange (std_min a b) (std_max a b).

(** [arr[i] = v] on an array held as a list; nothing is written when [i]
    is past the end. *)
Fixpoint store {A : Type} (arr : list A) (i : nat) (v : A) : list A :=
  match arr, i with
  | [], _ => []
  | _ :: arr', O => v :: arr'
  | a :: arr', S i' => a :: store arr' i' v
  end.

(** The loop of [ValuesInRange], from index [i] on, for [remaining] more
    rounds: [values] is the array as the rounds before left it and
    [num_returned] the number of values kept so far. *)
Fixpoint ValuesInRange_loop (range : RangeT) (epsilon : Q)
         (remaining i num_returned : nat) (values : list Q)
  : nat * list Q :=
  match remaining with
  | O => (num_returned, values)
  | S remaining' =>
      let value := nth i values 0 in
      let clamped := Clamp range value in
      let dist := Qabs (value - clamped) in
      if Qle_bool dist epsilon
      then ValuesInRange_loop range epsilon remaining' (S i)
                              (S num_returned)
                              (store values num_returned clamped)
      else ValuesInRange_loop range epsilon remaining' (S i)
                              num_returned values
  end.

(** [ValuesInRange(range, epsilon, num_values, values)]: the array and its
    length are one list; the result is the returned count and the array
    after the call. *)
Definition ValuesInRange (range : RangeT) (epsilon : Q) (values : list Q)
  : nat * list Q :=
  ValuesInRange_loop range epsilon (length values) 0 0 values.

(** What [ValuesInRange] keeps, as a filter: the values no farther than
    [epsilon] from the range, clamped. *)
Definition near_range (range : RangeT) (epsilon : Q) (value : Q) : bool :=
  Qle_bool (Qabs (value - Clamp range value)) epsilon.

Definition kept_values (range : RangeT) (epsilon : Q) (values : list Q)
  : list Q :=
  map (Clamp range) (filter (near_range range epsilon) values).

(** The inner loop of [IntersectRanges], over the elements of [b] for one
    [a[i]]: [out] collects the intersections written so far (most recent
    first) and [gaps_out] the gaps, when gaps are requested. *)
Fixpoint IntersectRanges_row (ai : RangeT) (b : list RangeT)
         (use_gaps : bool) (out gaps_out : list RangeT)
  : list RangeT * list RangeT :=
  match b with
  | [] => (out, gaps_out)
  | bj :: b' =>
      let intersection := Intersect ai bj in
      if Valid intersection
      then IntersectRanges_row ai b' use_gaps (intersection :: out) gaps_out
      else if use_gaps
           then IntersectRanges_row ai b' use_gaps out
                                    (Invert intersection :: gaps_out)
           else IntersectRanges_row ai b' use_gaps out gaps_out
  end.

Fixpoint IntersectRanges_rows (a b : list RangeT) (use_gaps : bool)
         (out gaps_out : list RangeT) : list RangeT * list RangeT :=
  match a with
  | [] => (out, gaps_out)
  | ai :: a' =>
      let (out', gaps_out') := IntersectRanges_row ai b use_gaps out gaps_out in
      IntersectRanges_rows a' b use_gaps out' gaps_out'
  end.

(** [IntersectRanges(a, len_a, b, len_b, intersections, gaps, len_gaps)].
    The two output arrays are written from index [0] on; the result gives
    the elements written to each, in the order of their indices.
    [use_gaps] says whether [gaps] is non-null. *)
Definition IntersectRanges (a b : list RangeT) (use_gaps : bool)
  : list RangeT * list RangeT :=
  let (out, gaps_out) := IntersectRanges_rows a b use_gaps [] [] in
  (rev out, rev gaps_out).

(** The loop of [IndexOfLongest] from index [i] on. *)
Fixpoint IndexOfLongest_loop (ranges : list RangeT) (i : nat)
         (longest_length : Q) (longest_index : nat) : nat :=
  match ranges with
  | [] => longest_index
  | r :: ranges' =>
      let length := Length r in
      if Qlt_bool longest_length length
      then IndexOfLongest_loop ranges' (S i) length i
      else IndexOfLongest_loop ranges' (S i) longest_length longest_index
  end.

Definition IndexOfLongest (ranges : list RangeT) : nat :=
  IndexOfLongest_loop ranges 0 (-1) 0.

(** The loop of [IndexOfShortest] from index [i] on; [None] stands for the
    initial [shortest_length] of plus infinity, which every length is
    below. *)
Fixpoint IndexOfShortest_loop (ranges : list RangeT) (i : nat)
         (shortest_length : option Q) (shortest_index : nat) : nat :=
  match ranges with
  | [] => shortest_index
  | r :: ranges' =>
      let length := Length r in
      if match shortest_length with
         | None => true
         | Some shortest => Qlt_bool length shortest
         end
      then IndexOfShortest_loop ranges' (S i) (Some length) i
      else IndexOfShortest_loop ranges' (S i) shortest_length shortest_index
  end.

Definition IndexOfShortest (ranges : list RangeT) : nat :=
  IndexOfShortest_loop ranges 0 None 0.

(** The intersections of every element of [a] with every element of [b],
    row-major over (index in [a], index in [b]). *)
Definition all_intersections (a b : list RangeT) : list RangeT :=
  flat_map (fun ai => map (Intersect ai) b) a.

Definition invalid (r : RangeT) : bool := negb (Valid r).

(** The range of the default constructor: [start = 1], [end = 0],
    invalid. *)
Definition none_range : RangeT := mkRange 1 0.

End Range.



(** ** [CubicCurve] *)

Module Curve.
Local Open Scope Q_scope.

(** Initialisation parameters of a cubic: start is [x = 0], end is
    [x = width_x]. *)
Record CubicInit : Set := mkCubicInit {
  start_y : Q;           (* y0 *)
  start_derivative : Q;  (* s0 *)
  end_y : Q;             (* y1 *)
  end_derivative : Q;    (* s1 *)
  width_x : Q            (* w *)
}.

(** [c3 * x^3 + c2 * x^2 + c1 * x + c0]; the field [ci] is [c_[i]]. *)
Record CubicCurve : Set := mkCubicCurve { c3 : Q; c2 : Q; c1 : Q; c0 : Q }.

Definition Evaluate (c : CubicCurve) (x : Q) : Q :=
  ((c3 c * x + c2 c) * x + c1 c) * x + c0 c.

Definition Derivative (c : CubicCurve) (x : Q) : Q :=
  (3 * c3 c * x + 2 * c2 c) * x + c1 c.

Definition SecondDerivative (c : CubicCurve) (x : Q) : Q :=
  6 * c3 c * x + 2 * c2 c.

Definition ThirdDerivative (c : CubicCurve) (x : Q) : Q := 6 * c3 c.

(** Modelled from the spec: [CubicCurve::Init] is declared in [curve.h] but
    its body is not part of the sources at hand.  The spec describes it as
    the closed-form solution of the four equations [f(0) = y0],
    [f'(0) = s0], [f(w) = y1], [f'(w) = s1] (the cubic Hermite basis scaled
    by [w]).  Substituting [x = 0] gives [c0 = y0] and [c1 = s0]; the two
    equations at [x = w] are linear in [c2] and [c3] and give
      [c2 = 3 (y1 - y0) / w^2 - (s1 + 2 s0) / w],
      [c3 = 2 (y0 - y1) / w^3 + (s1 + s0) / w^2]. *)
Definition Init (init : CubicInit) : CubicCurve :=
  let one_over_w := 1 / width_x init in
  let one_over_w_sq := one_over_w * one_over_w in
  let one_over_w_cubed := one_over_w_sq * one_over_w in
  {| c0 := start_y init;
     c1 := start_derivative init;
     c2 := 3 * one_over_w_sq * (end_y init - start_y init)
           - one_over_w * (end_derivative init + 2 * start_derivative init);
     c3 := one_over_w_cubed * 2 * (start_y init - end_y init)
           + one_over_w_sq * (end_derivative init + start_derivative init) |}.

(** [1.0f / static_cast<float>(1 << 22)]. *)
Definition kEpsilonScale : Q := 1 / inject_Z (Z.shiftl 1 22).

Definition Epsilon (c : CubicCurve) : Q :=
  let max_c :=
    Scalar.std_max
      (Scalar.std_max (Scalar.std_max (Qabs (c3 c)) (Qabs (c2 c)))
                      (Qabs (c1 c)))
      (Qabs (c0 c)) in
  max_c * kEpsilonScale.

(** The curve with every coefficient multiplied by [k]. *)
Definition scaled (k : Q) (c : CubicCurve) : CubicCurve :=
  mkCubicCurve (k * c3 c) (k * c2 c) (k * c1 c) (k * c0 c).

End Curve.

(** ** [QuadraticCurve] *)

Module Quadratic.
Import Scalar.
Local Open Scope Q_scope.

(** [c2 * x^2 + c1 * x + c0]; the field [ci] is [c_[i]]. *)
Record QuadraticCurve : Set := mkQuadraticCurve { c2 : Q; c1 : Q; c0 : Q }.

Definition Evaluate (c : QuadraticCurve) (x : Q) : Q :=
  (c2 c * x + c1 c) * x + c0 c.

Definition Derivative (c : QuadraticCurve) (x : Q) : Q :=
  2 * c2 c * x + c1 c.

Definition SecondDerivative (c : QuadraticCurve) (x : Q) : Q := 2 * c2 c.

Definition ThirdDerivative (c : QuadraticCurve) (x : Q) : Q := 0.

Definition Epsilon (c : QuadraticCurve) : Q :=
  let max_c :=
    std_max (std_max (Qabs (c2 c)) (Qabs (c1 c))) (Qabs (c0 c)) in
  max_c * Curve.kEpsilonScale.



(** The curve with every coefficient multiplied by [k]. *)
Definition scaled (k : Q) (c : QuadraticCurve) : QuadraticCurve :=
  mkQuadraticCurve (k * c2 c) (k * c1 c) (k * c0 c).

End Quadratic.


(** ** [AsyncLoader] *)

Module AsyncLoader.
Local Open Scope nat_scope.

(** An [AsyncResource *]: the address of the object and its file name.
    [Load()] and [Finalize()] are user code; the model records each call in
    a log. *)
Record AsyncResource : Set := mkResource { addr : nat; filename : string }.

Definition kBookendFileName : string := "bookend"%string.

Definition IsBookend (res : AsyncResource) : bool :=
  String.eqb (filename res) kBookendFileName.

(** The function-local [static BookendAsyncResource bookend] of
    [StopLoadingWhenComplete]. *)
Definition bookend : AsyncResource := mkResource 0 kBookendFileName.

(** Where the worker thread stands in [LoaderWorker]. *)
Inductive worker_pc : Set :=
| WNone                        (* no thread has been created *)
| WTop                         (* head of the loop, about to peek *)
| WSemWait                     (* saw an empty queue, in SDL_SemWait *)
| WLoad (res : AsyncResource)  (* peeked a job, about to call Load() *)
| WMove (res : AsyncResource)  (* Load() returned, about to move the job *)
| WExit.                       (* broke out of the loop *)

(** Where the calling thread stands in [QueueJob] or [TryFinalize]. *)
Inductive caller_pc : Set :=
| CIdle                           (* between two calls *)
| CSemPost                        (* QueueJob: pushed, about to post *)
| CFinTop                         (* TryFinalize: head of the loop *)
| CFinalize (res : AsyncResource) (* about to call Finalize() *)
| CErase                          (* about to erase done_.begin() *)
| CReturn.                        (* about to read queue_.empty() *)

(** The loader: its members, the two program points, and the history of
    the calls made ([load_log], [finalize_log]: the resources [Load()] and
    [Finalize()] were called on; [submitted]: the resources pushed by
    [QueueJob]; [returned]: the values returned by [TryFinalize]). *)
Record loader : Set := mkLoader {
  queue_ : list AsyncResource;
  done_ : list AsyncResource;
  job_semaphore_ : nat;
  worker_thread_ : worker_pc;
  caller : caller_pc;
  load_log : list AsyncResource;
  finalize_log : list AsyncResource;
  submitted : list AsyncResource;
  returned : list bool
}.

(** [AsyncLoader::AsyncLoader()]. *)
Definition init : loader :=
  mkLoader [] [] 0 WNone CIdle [] [] [] [].

(** [v.erase(v.begin())]; undefined on an empty vector. *)
Definition erase_begin {A : Type} (v : list A) : option (list A) :=
  match v with
  | [] => None
  | _ :: v' => Some v'
  end.

(** [v.empty()]. *)
Definition empty {A : Type} (v : list A) : bool :=
  match v with
  | [] => true
  | _ :: _ => false
  end.

Definition set_worker (w : worker_pc) (s : loader) : loader :=
  mkLoader (queue_ s) (done_ s) (job_semaphore_ s) w (caller s)
           (load_log s) (finalize_log s) (submitted s) (returned s).

Definition set_caller (c : caller_pc) (s : loader) : loader :=
  mkLoader (queue_ s) (done_ s) (job_semaphore_ s) (worker_thread_ s) c
           (load_log s) (finalize_log s) (submitted s) (returned s).

(** One atomic step of the worker thread in [LoaderWorker]: a locked
    section, a semaphore wait, or the call of [Load()].  [None] when the
    thread cannot move (not running, or blocked on the semaphore). *)
Definition LoaderWorker (s : loader) : option loader :=
  match worker_thread_ s with
  | WNone | WExit => None
  | WTop =>
      match queue_ s with
      | [] => Some (set_worker WSemWait s)
      | res :: _ =>
          if IsBookend res then Some (set_worker WExit s)
          else Some (set_worker (WLoad res) s)
      end
  | WSemWait =>
      match job_semaphore_ s with
      | O => None
      | S n =>
          Some (mkLoader (queue_ s) (done_ s) n WTop (caller s)
                         (load_log s) (finalize_log s) (submitted s)
                         (returned s))
      end
  | WLoad res =>
      Some (mkLoader (queue_ s) (done_ s) (job_semaphore_ s) (WMove res)
                     (caller s) (load_log s ++ [res]) (finalize_log s)
                     (submitted s) (returned s))
  | WMove res =>
      match erase_begin (queue_ s) with
      | None => None
      | Some q =>
          Some (mkLoader q (done_ s ++ [res]) (job_semaphore_ s) WTop
                         (caller s) (load_log s) (finalize_log s)
                         (submitted s) (returned s))
      end
  end.

(** [QueueJob(res)], first half: the push under the lock. *)
Definition QueueJob (res : AsyncResource) (s : loader) : option loader :=
  match caller s with
  | CIdle =>
      Some (mkLoader (queue_ s ++ [res]) (done_ s) (job_semaphore_ s)
                     (worker_thread_ s) CSemPost (load_log s)
                     (finalize_log s) (submitted s ++ [res]) (returned s))
  | _ => None
  end.

(** [StartLoading()]: creates the worker thread.  Calling it while a
    worker is alive is outside the contract and is not modelled. *)
Definition StartLoading (s : loader) : option loader :=
  match caller s, worker_thread_ s with
  | CIdle, WNone | CIdle, WExit => Some (set_worker WTop s)
  | _, _ => None
  end.

Definition StopLoadingWhenComplete (s : loader) : option loader :=
  QueueJob bookend s.

(** [TryFinalize()], entry. *)
Definition TryFinalize (s : loader) : option loader :=
  match caller s with
  | CIdle => Some (set_caller CFinTop s)
  | _ => None
  end.

(** The next atomic step of the call the calling thread is in. *)
Definition caller_step (s : loader) : option loader :=
  match caller s with
  | CIdle => None
  | CSemPost =>
      Some (mkLoader (queue_ s) (done_ s) (S (job_semaphore_ s))
                     (worker_thread_ s) CIdle (load_log s) (finalize_log s)
                     (submitted s) (returned s))
  | CFinTop =>
      match done_ s with
      | [] => Some (set_caller CReturn s)
      | res :: _ => Some (set_caller (CFinalize res) s)
      end
  | CFinalize res =>
      Some (mkLoader (queue_ s) (done_ s) (job_semaphore_ s)
                     (worker_thread_ s) CErase (load_log s)
                     (finalize_log s ++ [res]) (submitted s) (returned s))
  | CErase =>
      match erase_begin (done_ s) with
      | None => None
      | Some d =>
          Some (mkLoader (queue_ s) d (job_semaphore_ s) (worker_thread_ s)
                         CFinTop (load_log s) (finalize_log s) (submitted s)
                         (returned s))
      end
  | CReturn =>
      Some (mkLoader (queue_ s) (done_ s) (job_semaphore_ s)
                     (worker_thread_ s) CIdle (load_log s) (finalize_log s)
                     (submitted s) (returned s ++ [empty (queue_ s)]))
  end.

Inductive call : Set :=
| CallQueueJob (res : AsyncResource)
| CallStartLoading
| CallStopLoadingWhenComplete
| CallTryFinalize.

(** A schedule names, step by step, which thread moves: the worker, the
    calling thread inside its current call, or the calling thread entering
    a new call. *)
Inductive label : Set :=
| Worker
| Caller
| Call (c : call).

Definition step (l : label) (s : loader) : option loader :=
  match l with
  | Worker => LoaderWorker s
  | Caller => caller_step s
  | Call (CallQueueJob res) => QueueJob res s
  | Call CallStartLoading => StartLoading s
  | Call CallStopLoadingWhenComplete => StopLoadingWhenComplete s
  | Call CallTryFinalize => TryFinalize s
  end.

Fixpoint run (sched : list label) (s : loader) : option loader :=
  match sched with
  | [] => Some s
  | l :: sched' =>
      match step l s with
      | None => None
      | Some s' => run sched' s'
      end
  end.

(** The jobs submitted before the first sentinel. *)
Fixpoint before_sentinel (l : list AsyncResource) : list AsyncResource :=
  match l with
  | [] => []
  | res :: l' => if IsBookend res then [] else res :: before_sentinel l'
  end.

(** The job whose [Load()] has returned and which is not yet moved. *)
Definition in_flight (w : worker_pc) : list AsyncResource :=
  match w with
  | WMove res => [res]
  | _ => []
  end.

(** The jobs moved to [done_] so far, in the order they were moved: those
    finalized, then those still waiting in [done_]. *)
Definition completed (s : loader) : list AsyncResource :=
  finalize_log s ++
  match caller s with
  | CErase => tl (done_ s)
  | _ => done_ s
  end.

(** The state a call of [TryFinalize] that runs undisturbed leaves. *)
Definition drained (s : loader) : loader :=
  mkLoader (queue_ s) [] (job_semaphore_ s) (worker_thread_ s) CIdle
           (load_log s) (finalize_log s ++ done_ s) (submitted s)
           (returned s ++ [empty (queue_ s)]).

(** The schedule of one call of [TryFinalize] that finds [n] completed
    jobs and runs undisturbed. *)
Definition TryFinalize_alone (n : nat) : list label :=
  Call CallTryFinalize :: repeat Caller (3 * n + 2).

Definition running (w : worker_pc) : bool :=
  match w with
  | WNone | WExit => false
  | _ => true
  end.

(** A concrete session: two textures, and a user resource that happens to
    be named like the sentinel. *)
Definition texture_a : AsyncResource := mkResource 1 "a.webp"%string.
Definition texture_b : AsyncResource := mkResource 2 "b.webp"%string.
Definition impostor : AsyncResource := mkResource 7 "bookend"%string.

(** [texture_a] is queued, the worker is started and loads it while
    [texture_b] is queued; then the sentinel is queued. *)
Definition session_queued : list label :=
  [Call (CallQueueJob texture_a); Caller; Call CallStartLoading; Worker;
   Call (CallQueueJob texture_b); Worker; Caller; Worker;
   Call CallStopLoadingWhenComplete; Caller].

(** The same, followed by the worker running up to its exit. *)
Definition session_exited : list label :=
  session_queued ++ repeat Worker 4.

(** [impostor] is queued between the two textures; the worker is started
    once all three are queued and handles [texture_a]. *)
Definition session_impostor : list label :=
  [Call (CallQueueJob texture_a); Caller;
   Call (CallQueueJob impostor); Caller;
   Call (CallQueueJob texture_b); Caller;
   Call CallStartLoading; Worker; Worker; Worker].

(** After [session_queued]: the steps of one call of [TryFinalize] once it
    is entered, with the worker loading [texture_b] and reaching the
    sentinel in between. *)
Definition finalize_interleaved : list label :=
  [Caller; Worker; Caller; Worker; Worker; Caller; Caller; Caller; Caller;
   Caller; Worker; Caller].

(** The state a schedule leads to from the initial one ([init] itself if
    the schedule cannot be followed). *)
Definition state_after (sched : list label) : loader :=
  match run sched init with
  | Some s => s
  | None => init
  end.

Definition state_queued : loader :=
  Eval vm_compute in state_after session_queued.

Definition state_exited : loader :=
  Eval vm_compute in state_after session_exited.

Definition state_impostor : loader :=
  Eval vm_compute in state_after session_impostor.

Definition state_finalized : loader :=
  Eval vm_compute in
    state_after (session_queued ++ Call CallTryFinalize
                                   :: finalize_interleaved).

(** Schedules in which the calling thread enters no new call. *)
Definition no_call (l : label) : bool :=
  match l with
  | Call _ => false
  | _ => true
  end.

(** *** Invariant of the loader *)

Definition not_bookend (res : AsyncResource) : Prop := IsBookend res = false.

Record Inv (s : loader) : Prop := mkInv {
  inv_submitted : submitted s = completed s ++ queue_ s;
  inv_loaded : load_log s = completed s ++ in_flight (worker_thread_ s);
  inv_worker :
    match worker_thread_ s with
    | WLoad res | WMove res =>
        IsBookend res = false /\ exists q, queue_ s = res :: q
    | WExit => exists res q, queue_ s = res :: q /\ IsBookend res = true
    | WSemWait =>
        length (queue_ s) <=
        job_semaphore_ s + match caller s with CSemPost => 1 | _ => 0 end
    | _ => True
    end;
  inv_caller :
    match caller s with
    | CFinalize res => exists d, done_ s = res :: d
    | CErase => done_ s <> []
    | _ => True
    end;
  inv_load_log : Forall not_bookend (load_log s);
  inv_done : Forall not_bookend (done_ s)
}.

(** How far a call of [TryFinalize] has come, while the worker runs along:
    [target] are the jobs moved before the call, [ret0] the values returned
    before it. *)
Definition finalize_progress (target : list AsyncResource)
           (ret0 : list bool) (s : loader) : Prop :=
  match caller s with
  | CFinTop | CFinalize _ | CErase =>
      (exists e, completed s = target ++ e) /\ returned s = ret0
  | CReturn =>
      (exists e, finalize_log s = target ++ e) /\ returned s = ret0
  | CIdle =>
      (exists e, finalize_log s = target ++ e) /\
      exists b, returned s = ret0 ++ [b] /\ (b = true -> queue_ s = [])
  | CSemPost => False
  end.

(** *** The destructor and what the erasures remove *)

(** When the calling thread is about to erase [done_.begin()], that
    element is the resource it has just finalized. *)
Definition erases_finalized (s : loader) : Prop :=
  match caller s with
  | CErase =>
      exists res d f, done_ s = res :: d /\ finalize_log s = f ++ [res]
  | _ => True
  end.

(** [SDL_WaitThread(worker_thread_, nullptr)]: returns once the thread
    function has returned, and at once when no thread was created; [None]
    while the calling thread still waits. *)
Definition SDL_WaitThread (s : loader) : option loader :=
  match worker_thread_ s with
  | WNone | WExit => Some s
  | _ => None
  end.

(** [~AsyncLoader()] up to its wait: [StopLoadingWhenComplete()], that is
    the push of the sentinel and the post. *)
Definition destructor_entry : list label :=
  [Call CallStopLoadingWhenComplete; Caller].

(** The worker has stopped at a sentinel, or has been started again and
    is about to peek at it. *)
Definition stopped (s : loader) : Prop :=
  (exists res q, queue_ s = res :: q /\ IsBookend res = true) /\
  (worker_thread_ s = WExit \/ worker_thread_ s = WTop).

(** A session in which [TryFinalize] returns [true] although a loaded
    resource is still waiting in [done_]: the worker moves [texture_a]
    between the last look at [done_] and the look at [queue_]. *)
Definition session_race : list label :=
  [Call (CallQueueJob texture_a); Caller; Call CallStartLoading;
   Worker; Worker; Call CallTryFinalize; Caller; Worker; Caller].

Definition state_race : loader :=
  Eval vm_compute in state_after session_race.

(** The worker is started on an empty queue and goes to wait. *)
Definition session_waiting : list label := [Call CallStartLoading; Worker].

Definition state_waiting : loader :=
  Eval vm_compute in state_after session_waiting.

(** After the exit of [session_exited]: another texture is queued and the
    worker is started again and left to run. *)
Definition session_restart : list label :=
  [Call (CallQueueJob texture_b); Caller; Call CallStartLoading; Worker].

(** After [session_queued], a call of [TryFinalize] up to the point where
    [texture_a] is finalized and not yet erased from [done_]. *)
Definition session_erasing : list label :=
  session_queued ++ [Call CallTryFinalize; Caller; Caller].

Definition state_erasing : loader :=
  Eval vm_compute in state_after session_erasing.

End AsyncLoader.


(** ** String helpers of [utilities.cpp] *)

Module Utilities.
Import Ascii.
Local Open Scope nat_scope.









(** [s.rfind(c)]: the index of the last [c] in [s]; [None] is [npos]. *)
Fixpoint rfind (c : ascii) (s : string) : option nat :=
  match s with
  | EmptyString => None
  | String a rest =>
      match rfind c rest with
      | Some i => Some (S i)
      | None => if Ascii.eqb a c then Some 0 else None
      end
  end.

(** [s.substr(pos)] for [pos <= s.size()]. *)
Fixpoint substr (pos : nat) (s : string) : string :=
  match pos, s with
  | O, _ => s
  | S pos', String _ rest => substr pos' rest
  | S _, EmptyString => EmptyString
  end.

(** [FileUtils::Name]: [npos + 1] wraps around to [0]. *)
Definition Name (path : string) : string :=
  substr match rfind "/"%char path with
         | Some i => i + 1
         | None => 0
         end path.


Definition no_slash (s : string) : Prop :=
  ~ In "/"%char (list_ascii_of_string s).

End Utilities.

(** ** The controller list of [PieNoonGame] *)

Module Controllers.
Local Open Scope Z_scope.

(** A [Controller *]: [None] is [nullptr], [Some a] the object at address
    [a].  [active_controllers_] is the vector of these. *)
Definition Controller_ptr : Set := option nat.

(** The search loop of [AddController] from index [new_id] over the slots
    from there on: the index of the first null slot and the slots with
    that one assigned, or [None] when there is no null slot. *)
Fixpoint AddController_loop (new_controller : Controller_ptr) (new_id : nat)
         (slots : list Controller_ptr) : option (nat * list Controller_ptr) :=
  match slots with
  | [] => None
  | None :: slots' => Some (new_id, new_controller :: slots')
  | Some a :: slots' =>
      match AddController_loop new_controller (S new_id) slots' with
      | Some (id, slots'') => Some (id, Some a :: slots'')
      | None => None
      end
  end.

(** [AddController(new_controller)]: the returned id and the vector after
    the call.  Ids are [int]; vectors of [2^31] controllers and more are
    outside the model. *)
Definition AddController (new_controller : Controller_ptr)
           (active_controllers_ : list Controller_ptr)
  : Z * list Controller_ptr :=
  match AddController_loop new_controller 0 active_controllers_ with
  | Some (new_id, updated) => (Z.of_nat new_id, updated)
  | None =>
      let pushed := active_controllers_ ++ [new_controller] in
      (Z.of_nat (length pushed) - 1, pushed)
  end.

Definition GetController (id : Z) (active_controllers_ : list Controller_ptr)
  : Controller_ptr :=
  if (0 <=? id) && (id <? Z.of_nat (length active_controllers_))
  then nth (Z.to_nat id) active_controllers_ None
  else None.

End Controllers.

(** * The theorems *)

(** ** Scalars *)

Module ScalarFacts.
Import Scalar.
Local Open Scope Q_scope.

Lemma Qlt_bool_iff (a b : Q) : Qlt_bool a b = true <-> a < b.
Proof.
  unfold Qlt_bool. rewrite negb_true_iff.
  split; intro H.
  - apply Qnot_le_lt. intro Hle. apply Qle_bool_iff in Hle. congruence.
  - destruct (Qle_bool b a) eqn:E; [|reflexivity].
    apply Qle_bool_iff in E. lra.
Qed.

Lemma Qlt_bool_false_iff (a b : Q) : Qlt_bool a b = false <-> b <= a.
Proof.
  unfold Qlt_bool. rewrite negb_false_iff. apply Qle_bool_iff.
Qed.

Lemma Qle_bool_false_iff (a b : Q) : Qle_bool a b = false <-> b < a.
Proof.
  split; intro H.
  - apply Qnot_le_lt. intro Hle. apply Qle_bool_iff in Hle. congruence.
  - destruct (Qle_bool a b) eqn:E; [|reflexivity].
    apply Qle_bool_iff in E. lra.
Qed.

(** Case analysis on the comparisons the code performs. *)
Ltac cmp_cases :=
  repeat match goal with
  | |- context [Qlt_bool ?a ?b] =>
      let E := fresh "E" in
      destruct (Qlt_bool a b) eqn:E;
      [apply Qlt_bool_iff in E | apply Qlt_bool_false_iff in E]
  | |- context [Qle_bool ?a ?b] =>
      let E := fresh "E" in
      destruct (Qle_bool a b) eqn:E;
      [apply Qle_bool_iff in E | apply Qle_bool_false_iff in E]
  | H : context [Qlt_bool ?a ?b] |- _ =>
      let E := fresh "E" in
      destruct (Qlt_bool a b) eqn:E;
      [apply Qlt_bool_iff in E | apply Qlt_bool_false_iff in E]
  | H : context [Qle_bool ?a ?b] |- _ =>
      let E := fresh "E" in
      destruct (Qle_bool a b) eqn:E;
      [apply Qle_bool_iff in E | apply Qle_bool_false_iff in E]
  end.

Lemma std_max_Qmax (a b : Q) : std_max a b == Qmax a b.
Proof.
  unfold std_max. cmp_cases.
  - symmetry. apply Q.max_r. lra.
  - symmetry. apply Q.max_l. lra.
Qed.

Lemma std_min_Qmin (a b : Q) : std_min a b == Qmin a b.
Proof.
  unfold std_min. cmp_cases.
  - symmetry. apply Q.min_r. lra.
  - symmetry. apply Q.min_l. lra.
Qed.

End ScalarFacts.

(** ** [RangeT] *)

Module RangeFacts.
Import Scalar ScalarFacts Range.
Local Open Scope Q_scope.

(** *** Reading the boolean predicates *)

Lemma Valid_iff (r : RangeT) : Valid r = true <-> start_ r <= end_ r.
Proof. apply Qle_bool_iff. Qed.

Lemma Contains_iff (r : RangeT) (x : Q) :
  Contains r x = true <-> start_ r <= x <= end_ r.
Proof.
  unfold Contains. rewrite andb_true_iff, !Qle_bool_iff. tauto.
Qed.

(** *** The operations on a range of angles, in degrees *)

Example Normalize_above :
  option_map Qred (Normalize degrees 270) = Some (-90).
Proof. reflexivity. Qed.

Example Normalize_at_start :
  option_map Qred (Normalize degrees (-180)) = Some 180.
Proof. reflexivity. Qed.

Example Normalize_too_far : Normalize degrees 541 = None.
Proof. reflexivity. Qed.

Example NormalizeWildValue_far :
  option_map Qred (NormalizeWildValue degrees 1000) = Some (-80).
Proof. reflexivity. Qed.

Example ModDiff_directions :
  map (fun d => option_map Qred (ModDiff degrees 170 (-170) d))
      [kDirectionClosest; kDirectionFarthest; kDirectionPositive;
       kDirectionNegative; kDirectionDirect]
  = [Some 20; Some (-340); Some 20; Some (-340); Some (-340)].
Proof. reflexivity. Qed.

Example Intersect_disjoint :
  Intersect (mkRange 0 1) (mkRange 3 5) = mkRange 3 1.
Proof. reflexivity. Qed.

(** *** Clamp *)

(** C8.  For a valid range, [Clamp r x] lies in [[start, end]], and it is
    [x] exactly when the range contains [x]. *)
Theorem Clamp_in_range_iff_Contains (r : RangeT) (x : Q) :
  Valid r = true ->
  (start_ r <= Clamp r x <= end_ r) /\
  Contains r (Clamp r x) = true /\
  (Clamp r x == x <-> Contains r x = true).
Proof.
  rewrite Valid_iff, !Contains_iff. intro Hv.
  unfold Clamp, mathfu_Clamp, std_max, std_min.
  cmp_cases; repeat split; intros; try lra.
Qed.

Lemma Clamp_in_range_iff_Contains_witness :
  let r := mkRange (-1) 1 in
  Valid r = true /\
  (start_ r <= Clamp r 5 <= end_ r) /\
  Contains r (Clamp r 5) = true /\
  (Clamp r 5 == 5 <-> Contains r 5 = true).
Proof.
  intro r. split; [reflexivity|].
  apply (Clamp_in_range_iff_Contains r 5). reflexivity.
Defined.

(** *** Intersect *)

Lemma std_max_assoc (a b c : Q) :
  std_max (std_max a b) c = std_max a (std_max b c).
Proof.
  unfold std_max. cmp_cases; try reflexivity; lra.
Qed.

Lemma std_min_assoc (a b c : Q) :
  std_min (std_min a b) c = std_min a (std_min b c).
Proof.
  unfold std_min. cmp_cases; try reflexivity; lra.
Qed.

Lemma Intersect_bounds (a b : RangeT) :
  start_ a <= start_ (Intersect a b) /\ start_ b <= start_ (Intersect a b) /\
  end_ (Intersect a b) <= end_ a /\ end_ (Intersect a b) <= end_ b.
Proof.
  unfold Intersect, std_max, std_min; simpl. cmp_cases; lra.
Qed.

Lemma RangeT_eqb_refl (a : RangeT) : RangeT_eqb a a = true.
Proof.
  unfold RangeT_eqb. rewrite !Qeq_bool_refl. reflexivity.
Qed.

(** C7.  [Intersect a b] is the range from the larger start to the smaller
    end.  It is valid exactly when [a] and [b] share a point; when two valid
    ranges share none, inverting it gives the gap between them, from the
    end of the lower range to the start of the upper one.  [Intersect] is
    associative. *)
Theorem Intersect_max_min_gap_assoc (a b c : RangeT) :
  (start_ (Intersect a b) == Qmax (start_ a) (start_ b) /\
   end_ (Intersect a b) == Qmin (end_ a) (end_ b)) /\
  (Valid (Intersect a b) = true <->
   exists x, Contains a x = true /\ Contains b x = true) /\
  (Valid a = true -> Valid b = true -> Valid (Intersect a b) = false ->
   Valid (Invert (Intersect a b)) = true /\
   ((end_ a < start_ b /\
     Invert (Intersect a b) = mkRange (end_ a) (start_ b)) \/
    (end_ b < start_ a /\
     Invert (Intersect a b) = mkRange (end_ b) (start_ a)))) /\
  Intersect (Intersect a b) c = Intersect a (Intersect b c) /\
  RangeT_eqb (Intersect (Intersect a b) c) (Intersect a (Intersect b c))
  = true.
Proof.
  split; [|split; [|split; [|split]]].
  - simpl. split; [apply std_max_Qmax | apply std_min_Qmin].
  - rewrite Valid_iff. pose proof (Intersect_bounds a b) as Hb. split.
    + intro Hv. exists (start_ (Intersect a b)).
      rewrite !Contains_iff. lra.
    + intros [x [Ha Hx]]. rewrite Contains_iff in Ha, Hx.
      revert Hb. unfold Intersect, std_max, std_min; simpl.
      cmp_cases; lra.
  - rewrite !Valid_iff. intros Ha Hb Hi.
    apply Qle_bool_false_iff in Hi. revert Hi.
    unfold Invert, Intersect, std_max, std_min; simpl.
    cmp_cases; intro Hi; (split; [lra|]);
      first [left; split; [lra | reflexivity]
            | right; split; [lra | reflexivity]
            | exfalso; lra].
  - unfold Intersect; simpl.
    rewrite std_max_assoc, std_min_assoc. reflexivity.
  - unfold Intersect; simpl.
    rewrite std_max_assoc, std_min_assoc. apply RangeT_eqb_refl.
Qed.

Lemma Intersect_max_min_gap_assoc_witness :
  let a := mkRange 0 1 in
  let b := mkRange 3 5 in
  Valid a = true /\ Valid b = true /\ Valid (Intersect a b) = false /\
  Valid (Invert (Intersect a b)) = true /\
  ((end_ a < start_ b /\
    Invert (Intersect a b) = mkRange (end_ a) (start_ b)) \/
   (end_ b < start_ a /\
    Invert (Intersect a b) = mkRange (end_ b) (start_ a))).
Proof.
  intros a b.
  destruct (Intersect_max_min_gap_assoc a b a) as [_ [_ [Hgap _]]].
  split; [reflexivity|]. split; [reflexivity|]. split; [reflexivity|].
  apply Hgap; reflexivity.
Defined.

(** *** Normalize *)










(** *** Modular differences *)










(** *** Clamping and distance *)

(** X1.  [Clamp] is the projection on a valid range: its result is at
    least as close to [x] as any point of the range, and clamping twice
    changes nothing. *)
Theorem Clamp_nearest_point (r : RangeT) (x y : Q) :
  Valid r = true -> Contains r y = true ->
  Qabs (x - Clamp r x) <= Qabs (x - y) /\
  Clamp r (Clamp r x) == Clamp r x.
Proof.
  rewrite Valid_iff, Contains_iff. intros Hv Hy.
  unfold Clamp, mathfu_Clamp, std_max, std_min. split.
  - cmp_cases; apply Qabs_case; intros; apply Qabs_case; intros; lra.
  - cmp_cases; lra.
Qed.

Lemma Clamp_nearest_point_witness :
  let r := mkRange (-1) 1 in
  (Valid r = true /\ Contains r (1 # 2) = true) /\
  Qabs (5 - Clamp r 5) <= Qabs (5 - (1 # 2)) /\
  Clamp r (Clamp r 5) == Clamp r 5.
Proof.
  intro r. split; [split; reflexivity|].
  apply (Clamp_nearest_point r 5 (1 # 2)); reflexivity.
Defined.

(** X2.  [Clamp] is [ClampBeforeEnd] followed by [ClampAfterStart]; so
    [ClampAfterStart] alone clamps a value known to be inside the end
    bound, and on a valid range [ClampBeforeEnd] alone clamps a value
    known to be inside the start bound. *)
Theorem Clamp_one_sided (r : RangeT) (x : Q) :
  ClampAfterStart r (ClampBeforeEnd r x) == Clamp r x /\
  (x <= end_ r -> ClampAfterStart r x == Clamp r x) /\
  (Valid r = true -> start_ r <= x -> ClampBeforeEnd r x == Clamp r x).
Proof.
  rewrite Valid_iff.
  unfold ClampAfterStart, ClampBeforeEnd, Clamp, mathfu_Clamp,
    std_max, std_min.
  repeat split; intros; cmp_cases; lra.
Qed.

Lemma Clamp_one_sided_witness :
  let r := mkRange (-1) 1 in
  (-3 <= end_ r /\ ClampAfterStart r (-3) == Clamp r (-3)) /\
  (Valid r = true /\ start_ r <= 3 /\ ClampBeforeEnd r 3 == Clamp r 3).
Proof.
  intro r.
  destruct (Clamp_one_sided r (-3)) as [_ [Hafter _]].
  destruct (Clamp_one_sided r 3) as [_ [_ Hbefore]].
  split.
  - assert (H : -3 <= end_ r) by (intro H; discriminate H).
    split; [exact H | exact (Hafter H)].
  - assert (H : start_ r <= 3) by (intro H; discriminate H).
    split; [reflexivity|]. split; [exact H | exact (Hbefore eq_refl H)].
Defined.

(** X3.  On a valid range [DistanceFrom] is never negative, is zero
    exactly on the points the range contains, and outside is the distance
    to the bound that was passed. *)
Theorem DistanceFrom_outside (r : RangeT) (x : Q) :
  Valid r = true ->
  0 <= DistanceFrom r x /\
  (DistanceFrom r x == 0 <-> Contains r x = true) /\
  (x < start_ r -> DistanceFrom r x == start_ r - x) /\
  (end_ r < x -> DistanceFrom r x == x - end_ r).
Proof.
  rewrite Valid_iff, Contains_iff. intro Hv.
  unfold DistanceFrom, Clamp, mathfu_Clamp, std_max, std_min.
  split; [apply Qabs_nonneg|].
  repeat split; cmp_cases; try (revert H); apply Qabs_case; intros; lra.
Qed.

Lemma DistanceFrom_outside_witness :
  let r := mkRange (-1) 1 in
  Valid r = true /\
  (-4 < start_ r /\ DistanceFrom r (-4) == start_ r - (-4)) /\
  (end_ r < 3 /\ DistanceFrom r 3 == 3 - end_ r).
Proof.
  intro r. split; [reflexivity|].
  destruct (DistanceFrom_outside r (-4) eq_refl) as [_ [_ [Hlo _]]].
  destruct (DistanceFrom_outside r 3 eq_refl) as [_ [_ [_ Hhi]]].
  split; (split; [reflexivity|]); [apply Hlo | apply Hhi]; reflexivity.
Defined.

(** *** Percent, Lengthen, Include, scaling *)






(** X6.  On a valid range [Include r x] is the smallest valid range that
    contains [x] and everything [r] contains; it has the bounds of [r]
    when [r] already contains [x]. *)
Theorem Include_smallest (r : RangeT) (x : Q) :
  Valid r = true ->
  Valid (Include r x) = true /\
  Contains (Include r x) x = true /\
  (forall y, Contains r y = true -> Contains (Include r x) y = true) /\
  (forall r',
     Contains r' x = true ->
     (forall y, Contains r y = true -> Contains r' y = true) ->
     start_ r' <= start_ (Include r x) /\ end_ (Include r x) <= end_ r') /\
  (Contains r x = true ->
   start_ (Include r x) == start_ r /\ end_ (Include r x) == end_ r).
Proof.
  rewrite Valid_iff. intro Hv.
  assert (Hb : start_ (Include r x) <= start_ r /\
               start_ (Include r x) <= x /\
               end_ r <= end_ (Include r x) /\ x <= end_ (Include r x) /\
               (start_ (Include r x) == start_ r \/
                start_ (Include r x) == x) /\
               (end_ (Include r x) == end_ r \/ end_ (Include r x) == x)).
  { unfold Include, std_min, std_max; simpl.
    cmp_cases; repeat split; try lra; auto with qarith. }
  destruct Hb as [H1 [H2 [H3 [H4 [H5 H6]]]]].
  split; [apply Valid_iff; lra|].
  split; [apply Contains_iff; lra|].
  split; [|split].
  - intros y Hy. rewrite Contains_iff in *. lra.
  - intros r' Hx Hall.
    assert (Hs : Contains r' (start_ r) = true)
      by (apply Hall; apply Contains_iff; lra).
    assert (He : Contains r' (end_ r) = true)
      by (apply Hall; apply Contains_iff; lra).
    rewrite Contains_iff in Hx, Hs, He.
    destruct H5 as [H5|H5]; destruct H6 as [H6|H6]; rewrite H5, H6; lra.
  - rewrite Contains_iff. intros [Hx1 Hx2].
    destruct H5 as [H5|H5]; destruct H6 as [H6|H6]; lra.
Qed.

Lemma Include_smallest_witness :
  let r := mkRange 2 6 in
  Valid r = true /\
  Valid (Include r 9) = true /\ Contains (Include r 9) 9 = true /\
  Include r 9 = mkRange 2 9.
Proof.
  intro r.
  destruct (Include_smallest r 9 eq_refl) as [Hv [Hx _]].
  split; [reflexivity|]. split; [exact Hv|]. split; [exact Hx|].
  reflexivity.
Defined.



(** X8.  [CreateValidRange a b] is valid whatever the order of its
    arguments, contains exactly the points between them, and its length is
    the distance between them. *)
Theorem CreateValidRange_valid (a b x : Q) :
  Valid (CreateValidRange a b) = true /\
  Length (CreateValidRange a b) == Qabs (a - b) /\
  (Contains (CreateValidRange a b) x = true <->
   (a <= x /\ x <= b) \/ (b <= x /\ x <= a)) /\
  RangeT_eqb (CreateValidRange a b) (CreateValidRange b a) = true.
Proof.
  rewrite Valid_iff, Contains_iff.
  unfold RangeT_eqb, CreateValidRange, Length, std_min, std_max.
  cbn [start_ end_].
  split; [cmp_cases; lra|]. split; [|split].
  - cmp_cases; apply Qabs_case; intros; lra.
  - cmp_cases; split; intros; lra.
  - apply andb_true_iff. split; apply Qeq_bool_iff; cmp_cases; lra.
Qed.

(** *** Normalisation: fixed points and periodicity *)






(** *** ValuesInRange *)

Lemma skipn_nth_cons {A : Type} (d : A) (l : list A) :
  forall k, (k < length l)%nat -> skipn k l = nth k l d :: skipn (S k) l.
Proof.
  induction l as [|a l IH]; intros k Hk; simpl in Hk; [lia|].
  destruct k as [|k]; [reflexivity|].
  rewrite !skipn_cons. apply IH. lia.
Qed.

Lemma store_app_length {A : Type} (l1 l2 : list A) (x c : A) :
  store (l1 ++ x :: l2) (length l1) c = l1 ++ c :: l2.
Proof.
  induction l1 as [|a l1 IH]; simpl; [reflexivity|].
  rewrite IH. reflexivity.
Qed.

Lemma kept_values_cons (range : RangeT) (epsilon v : Q) (l : list Q) :
  kept_values range epsilon (v :: l) =
  if near_range range epsilon v
  then Clamp range v :: kept_values range epsilon l
  else kept_values range epsilon l.
Proof.
  unfold kept_values. simpl. destruct (near_range range epsilon v);
    reflexivity.
Qed.

Lemma kept_values_length (range : RangeT) (epsilon : Q) (l : list Q) :
  (length (kept_values range epsilon l) <= length l)%nat.
Proof.
  induction l as [|v l IH]; [simpl; lia|].
  rewrite kept_values_cons. destruct (near_range range epsilon v); simpl; lia.
Qed.

(** The loop writes each kept value below the index it reads next, so the
    values still to be read are the original ones. *)
Lemma ValuesInRange_loop_spec (range : RangeT) (epsilon : Q)
      (values0 : list Q) :
  forall (remaining i : nat) (kept : list Q),
    (i + remaining = length values0)%nat -> (length kept <= i)%nat ->
    ValuesInRange_loop range epsilon remaining i (length kept)
                       (kept ++ skipn (length kept) values0)
    = let all := kept ++ kept_values range epsilon (skipn i values0) in
      (length all, all ++ skipn (length all) values0).
Proof.
  induction remaining as [|remaining IH]; intros i kept Hi Hk.
  - rewrite (skipn_all2 (n:=i) values0) by lia. simpl.
    unfold kept_values; simpl. rewrite app_nil_r. reflexivity.
  - assert (Hlt : (i < length values0)%nat) by lia.
    assert (Hread : nth i (kept ++ skipn (length kept) values0) 0
                    = nth i values0 0).
    { rewrite app_nth2 by lia. rewrite nth_skipn. f_equal. lia. }
    rewrite (skipn_nth_cons 0 values0 i Hlt), kept_values_cons.
    cbn [ValuesInRange_loop]. rewrite Hread.
    change (Qle_bool (Qabs (nth i values0 0 - Clamp range (nth i values0 0)))
                     epsilon)
      with (near_range range epsilon (nth i values0 0)).
    destruct (near_range range epsilon (nth i values0 0)).
    + rewrite (skipn_nth_cons 0 values0 (length kept)) by lia.
      rewrite store_app_length.
      pose proof (IH (S i) (kept ++ [Clamp range (nth i values0 0)])) as IH'.
      replace (length (kept ++ [Clamp range (nth i values0 0)]))
        with (S (length kept)) in IH'
        by (rewrite length_app; simpl; lia).
      replace ((kept ++ [Clamp range (nth i values0 0)])
               ++ skipn (S (length kept)) values0)
        with (kept ++ Clamp range (nth i values0 0)
                   :: skipn (S (length kept)) values0) in IH'
        by (rewrite <- app_assoc; reflexivity).
      rewrite IH' by lia. cbv zeta. rewrite <- !app_assoc. reflexivity.
    + rewrite (IH (S i) kept) by lia. reflexivity.
Qed.

Lemma Clamp_Contains (range : RangeT) (v : Q) :
  Valid range = true -> Contains range (Clamp range v) = true.
Proof.
  rewrite Valid_iff, Contains_iff. intro Hv.
  unfold Clamp, mathfu_Clamp, std_max, std_min. cmp_cases; lra.
Qed.

Lemma near_range_Contains (range : RangeT) (epsilon v : Q) :
  0 <= epsilon -> Contains range v = true ->
  near_range range epsilon v = true.
Proof.
  rewrite Contains_iff. intros He Hc.
  unfold near_range, Clamp, mathfu_Clamp, std_max, std_min.
  apply Qle_bool_iff. cmp_cases; apply Qabs_case; intros; lra.
Qed.

(** X11.  [ValuesInRange] returns the number of values that are within
    [epsilon] of the range and leaves them, clamped and in their original
    order, at the front of the array; the entries behind them are as they
    were.  The count never exceeds the number of values; on a valid range
    every value kept lies in the range; a negative [epsilon] keeps
    nothing; with [epsilon >= 0] an array of values that all lie in the
    range is kept whole. *)
Theorem ValuesInRange_keeps_near (range : RangeT) (epsilon : Q)
        (values : list Q) :
  let kept := kept_values range epsilon values in
  ValuesInRange range epsilon values
  = (length kept, kept ++ skipn (length kept) values) /\
  (length kept <= length values)%nat /\
  (Valid range = true ->
   Forall (fun v => Contains range v = true) kept) /\
  (epsilon < 0 -> kept = []) /\
  (0 <= epsilon ->
   Forall (fun v => Contains range v = true) values ->
   length kept = length values).
Proof.
  intro kept. subst kept. split; [|split; [|split; [|split]]].
  - unfold ValuesInRange.
    apply (ValuesInRange_loop_spec range epsilon values
                                   (length values) 0 []); simpl; lia.
  - apply kept_values_length.
  - intro Hv. unfold kept_values. apply Forall_forall. intros v Hin.
    apply in_map_iff in Hin. destruct Hin as [u [Hu _]]. subst v.
    apply Clamp_Contains. exact Hv.
  - intro Heps. induction values as [|v values IH]; [reflexivity|].
    rewrite kept_values_cons.
    assert (Hfar : near_range range epsilon v = false).
    { unfold near_range. apply Qle_bool_false_iff.
      pose proof (Qabs_nonneg (v - Clamp range v)). lra. }
    rewrite Hfar. exact IH.
  - intros Heps Hall. induction Hall as [|v values Hv _ IH]; [reflexivity|].
    rewrite kept_values_cons, (near_range_Contains range epsilon v Heps Hv).
    simpl. rewrite IH. reflexivity.
Qed.

Lemma ValuesInRange_keeps_near_witness :
  let range := mkRange 0 1 in
  let values := [1 # 2; 3; -1 # 100; 1] in
  (Valid range = true /\ 0 <= 1 # 10) /\
  ValuesInRange range (1 # 10) values
  = (3%nat, [Clamp range (1 # 2); Clamp range (-1 # 100); Clamp range 1; 1])
  /\
  Forall (fun v => Contains range v = true)
         (kept_values range (1 # 10) values).
Proof.
  intros range values.
  destruct (ValuesInRange_keeps_near range (1 # 10) values)
    as [Hrun [_ [Hin _]]].
  split; [split; [reflexivity | intro H; discriminate H]|].
  split; [exact Hrun | exact (Hin eq_refl)].
Defined.

(** *** IntersectRanges *)

Lemma Contains_Intersect (a b : RangeT) (x : Q) :
  Contains (Intersect a b) x = Contains a x && Contains b x.
Proof.
  apply eq_true_iff_eq.
  rewrite andb_true_iff, !Contains_iff.
  unfold Intersect, std_max, std_min; simpl. cmp_cases; split; intros; lra.
Qed.

Lemma Valid_Invert_invalid (r : RangeT) :
  invalid r = true -> Valid (Invert r) = true.
Proof.
  unfold invalid. rewrite negb_true_iff. intro H.
  apply Qle_bool_false_iff in H. apply Valid_iff. simpl. lra.
Qed.

Lemma IntersectRanges_row_spec (ai : RangeT) (use_gaps : bool)
      (b : list RangeT) :
  forall out gaps_out,
    IntersectRanges_row ai b use_gaps out gaps_out
    = (rev (filter Valid (map (Intersect ai) b)) ++ out,
       (if use_gaps
        then rev (map Invert (filter invalid (map (Intersect ai) b)))
        else []) ++ gaps_out).
Proof.
  induction b as [|bj b IH]; intros out gaps_out; simpl.
  - destruct use_gaps; reflexivity.
  - unfold invalid at 1. destruct (Valid (Intersect ai bj)) eqn:E; simpl.
    + rewrite IH, <- app_assoc. reflexivity.
    + destruct use_gaps; rewrite IH; simpl; [|reflexivity].
      rewrite <- app_assoc. reflexivity.
Qed.

Lemma IntersectRanges_rows_spec (use_gaps : bool) (b a : list RangeT) :
  forall out gaps_out,
    IntersectRanges_rows a b use_gaps out gaps_out
    = (rev (filter Valid (all_intersections a b)) ++ out,
       (if use_gaps
        then rev (map Invert (filter invalid (all_intersections a b)))
        else []) ++ gaps_out).
Proof.
  induction a as [|ai a IH]; intros out gaps_out.
  - simpl. destruct use_gaps; reflexivity.
  - cbn [IntersectRanges_rows all_intersections flat_map].
    rewrite IntersectRanges_row_spec, IH.
    rewrite !filter_app, map_app, !rev_app_distr, <- !app_assoc.
    destruct use_gaps; [|reflexivity].
    rewrite <- app_assoc. reflexivity.
Qed.

Lemma filter_partition_length {A : Type} (f : A -> bool) (l : list A) :
  (length (filter f l) + length (filter (fun x => negb (f x)) l)
   = length l)%nat.
Proof.
  induction l as [|x l IH]; simpl; [reflexivity|].
  destruct (f x); simpl; lia.
Qed.

Lemma all_intersections_length (a b : list RangeT) :
  (length (all_intersections a b) = length a * length b)%nat.
Proof.
  unfold all_intersections.
  induction a as [|ai a IH]; simpl; [reflexivity|].
  rewrite length_app, length_map, IH. reflexivity.
Qed.

Lemma In_all_intersections (a b : list RangeT) (r : RangeT) :
  In r (all_intersections a b) <->
  exists ai bj, In ai a /\ In bj b /\ r = Intersect ai bj.
Proof.
  unfold all_intersections. rewrite in_flat_map. split.
  - intros [ai [Ha Hr]]. apply in_map_iff in Hr.
    destruct Hr as [bj [Hr Hb]]. exists ai, bj. auto.
  - intros [ai [bj [Ha [Hb Hr]]]]. exists ai. split; [exact Ha|].
    apply in_map_iff. exists bj. auto.
Qed.

(** X12.  [IntersectRanges] writes, in row-major order over the pairs
    [(a[i], b[j])], the intersections that are valid, and, when gaps are
    requested, the inverted invalid ones to the gap array.  Every range it
    writes to either array is valid; with gaps requested the two counts
    add up to [len_a * len_b]; and a point lies in one of the returned
    intersections exactly when it lies in some range of [a] and in some
    range of [b]. *)
Theorem IntersectRanges_all_pairs (a b : list RangeT) (use_gaps : bool) :
  IntersectRanges a b use_gaps
  = (filter Valid (all_intersections a b),
     if use_gaps
     then map Invert (filter invalid (all_intersections a b))
     else []) /\
  Forall (fun r => Valid r = true) (fst (IntersectRanges a b use_gaps)) /\
  Forall (fun r => Valid r = true) (snd (IntersectRanges a b use_gaps)) /\
  (length (fst (IntersectRanges a b true))
   + length (snd (IntersectRanges a b true)) = length a * length b)%nat /\
  (forall x,
     (exists r, In r (fst (IntersectRanges a b use_gaps)) /\
                Contains r x = true) <->
     (exists ai, In ai a /\ Contains ai x = true) /\
     (exists bj, In bj b /\ Contains bj x = true)).
Proof.
  assert (Hspec : forall g,
            IntersectRanges a b g
            = (filter Valid (all_intersections a b),
               if g then map Invert (filter invalid (all_intersections a b))
               else [])).
  { intro g. unfold IntersectRanges. rewrite IntersectRanges_rows_spec.
    rewrite !app_nil_r, rev_involutive.
    destruct g; [rewrite rev_involutive|]; reflexivity. }
  split; [apply Hspec|]. rewrite !Hspec. cbn [fst snd].
  split; [|split; [|split]].
  - apply Forall_forall. intros r Hr. apply filter_In in Hr. tauto.
  - destruct use_gaps; [|constructor].
    apply Forall_forall. intros r Hr. apply in_map_iff in Hr.
    destruct Hr as [i [Hi Hin]]. subst r. apply filter_In in Hin.
    apply Valid_Invert_invalid. tauto.
  - rewrite length_map. unfold invalid.
    rewrite filter_partition_length. apply all_intersections_length.
  - intro x. split.
    + intros [r [Hr Hx]]. apply filter_In in Hr. destruct Hr as [Hr _].
      apply In_all_intersections in Hr.
      destruct Hr as [ai [bj [Ha [Hb Hr]]]]. subst r.
      rewrite Contains_Intersect in Hx. apply andb_true_iff in Hx.
      split; [exists ai | exists bj]; tauto.
    + intros [[ai [Ha Hax]] [bj [Hb Hbx]]].
      assert (Hx : Contains (Intersect ai bj) x = true)
        by (rewrite Contains_Intersect, Hax, Hbx; reflexivity).
      exists (Intersect ai bj). split; [|exact Hx].
      apply filter_In. split.
      * apply In_all_intersections. exists ai, bj. auto.
      * apply Valid_iff. apply Contains_iff in Hx. lra.
Qed.

(** *** IndexOfLongest and IndexOfShortest *)

Lemma IndexOfLongest_loop_spec (ranges : list RangeT) :
  forall (i : nat) (best : Q) (best_index : nat),
    let k := IndexOfLongest_loop ranges i best best_index in
    ((forall r, In r ranges -> Length r <= best) /\ k = best_index) \/
    (exists j,
       k = (i + j)%nat /\ (j < length ranges)%nat /\
       best < Length (nth j ranges none_range) /\
       (forall r, In r ranges ->
                  Length r <= Length (nth j ranges none_range)) /\
       (forall j', (j' < j)%nat ->
                   Length (nth j' ranges none_range)
                   < Length (nth j ranges none_range))).
Proof.
  induction ranges as [|r ranges IH]; intros i best best_index; simpl.
  - left. split; [intros r []|reflexivity].
  - destruct (Qlt_bool best (Length r)) eqn:E;
      [apply Qlt_bool_iff in E | apply Qlt_bool_false_iff in E].
    + destruct (IH (S i) (Length r) i) as [[Hall Hk]|[j [Hk [Hj [Hb [Hmax Hfirst]]]]]].
      * right. exists 0%nat. simpl. rewrite Hk.
        split; [lia|]. split; [lia|]. split; [exact E|]. split.
        -- intros r' [Hr|Hr]; [subst r'; lra | apply Hall; exact Hr].
        -- intros j' Hj'. lia.
      * right. exists (S j). simpl. rewrite Hk.
        split; [lia|]. split; [lia|]. split; [lra|]. split.
        -- intros r' [Hr|Hr]; [subst r'; lra | apply Hmax; exact Hr].
        -- intros [|j'] Hj'; [exact Hb | apply Hfirst; lia].
    + destruct (IH (S i) best best_index)
        as [[Hall Hk]|[j [Hk [Hj [Hb [Hmax Hfirst]]]]]].
      * left. split; [|exact Hk].
        intros r' [Hr|Hr]; [subst r'; exact E | apply Hall; exact Hr].
      * right. exists (S j). simpl. rewrite Hk.
        split; [lia|]. split; [lia|]. split; [exact Hb|]. split.
        -- intros r' [Hr|Hr]; [subst r'; lra | apply Hmax; exact Hr].
        -- intros [|j'] Hj'; [lra | apply Hfirst; lia].
Qed.

(** X13.  [IndexOfLongest] returns [0] for an empty array and for an array
    in which no range is longer than [-1].  Otherwise it returns the index
    of a range of the array that is at least as long as every other one,
    and the first such: every range before it is strictly shorter. *)
Theorem IndexOfLongest_first_longest (ranges : list RangeT) :
  IndexOfLongest [] = 0%nat /\
  ((forall r, In r ranges -> Length r <= -1) ->
   IndexOfLongest ranges = 0%nat) /\
  ((exists r, In r ranges /\ -1 < Length r) ->
   let k := IndexOfLongest ranges in
   (k < length ranges)%nat /\
   (forall r, In r ranges -> Length r <= Length (nth k ranges none_range)) /\
   (forall j, (j < k)%nat ->
              Length (nth j ranges none_range)
              < Length (nth k ranges none_range))).
Proof.
  split; [reflexivity|].
  unfold IndexOfLongest.
  destruct (IndexOfLongest_loop_spec ranges 0 (-1) 0)
    as [[Hall Hk]|[j [Hk [Hj [Hb [Hmax Hfirst]]]]]].
  - split; [intros _; exact Hk|].
    intros [r [Hr HL]]. specialize (Hall r Hr). lra.
  - simpl in Hk. split.
    + intro Hall. pose proof (Hall (nth j ranges none_range)
                                   (nth_In ranges none_range Hj)). lra.
    + intros _. cbv zeta. rewrite Hk. auto.
Qed.

Lemma IndexOfLongest_first_longest_witness :
  let ranges := [mkRange 0 1; mkRange 2 7; mkRange 5 3; mkRange 10 15] in
  (exists r, In r ranges /\ -1 < Length r) /\
  IndexOfLongest ranges = 1%nat /\
  forall r, In r ranges ->
            Length r <= Length (nth (IndexOfLongest ranges) ranges none_range).
Proof.
  intro ranges.
  assert (Hex : exists r, In r ranges /\ -1 < Length r).
  { exists (mkRange 0 1). split; [left; reflexivity | reflexivity]. }
  destruct (IndexOfLongest_first_longest ranges) as [_ [_ Hlong]].
  split; [exact Hex|]. split; [reflexivity|].
  exact (proj1 (proj2 (Hlong Hex))).
Defined.

Lemma IndexOfShortest_loop_spec (ranges : list RangeT) :
  forall (i : nat) (best : Q) (best_index : nat),
    let k := IndexOfShortest_loop ranges i (Some best) best_index in
    ((forall r, In r ranges -> best <= Length r) /\ k = best_index) \/
    (exists j,
       k = (i + j)%nat /\ (j < length ranges)%nat /\
       Length (nth j ranges none_range) < best /\
       (forall r, In r ranges ->
                  Length (nth j ranges none_range) <= Length r) /\
       (forall j', (j' < j)%nat ->
                   Length (nth j ranges none_range)
                   < Length (nth j' ranges none_range))).
Proof.
  induction ranges as [|r ranges IH]; intros i best best_index; simpl.
  - left. split; [intros r []|reflexivity].
  - destruct (Qlt_bool (Length r) best) eqn:E;
      [apply Qlt_bool_iff in E | apply Qlt_bool_false_iff in E].
    + destruct (IH (S i) (Length r) i)
        as [[Hall Hk]|[j [Hk [Hj [Hb [Hmin Hfirst]]]]]].
      * right. exists 0%nat. simpl. rewrite Hk.
        split; [lia|]. split; [lia|]. split; [exact E|]. split.
        -- intros r' [Hr|Hr]; [subst r'; lra | apply Hall; exact Hr].
        -- intros j' Hj'. lia.
      * right. exists (S j). simpl. rewrite Hk.
        split; [lia|]. split; [lia|]. split; [lra|]. split.
        -- intros r' [Hr|Hr]; [subst r'; lra | apply Hmin; exact Hr].
        -- intros [|j'] Hj'; [exact Hb | apply Hfirst; lia].
    + destruct (IH (S i) best best_index)
        as [[Hall Hk]|[j [Hk [Hj [Hb [Hmin Hfirst]]]]]].
      * left. split; [|exact Hk].
        intros r' [Hr|Hr]; [subst r'; exact E | apply Hall; exact Hr].
      * right. exists (S j). simpl. rewrite Hk.
        split; [lia|]. split; [lia|]. split; [exact Hb|]. split.
        -- intros r' [Hr|Hr]; [subst r'; lra | apply Hmin; exact Hr].
        -- intros [|j'] Hj'; [lra | apply Hfirst; lia].
Qed.

(** X14.  [IndexOfShortest] returns [0] for an empty array.  For any
    other array it returns the index of a range that is at most as long as
    every other one, and the first such: every range before it is strictly
    longer. *)
Theorem IndexOfShortest_first_shortest (ranges : list RangeT) :
  IndexOfShortest [] = 0%nat /\
  (ranges <> [] ->
   let k := IndexOfShortest ranges in
   (k < length ranges)%nat /\
   (forall r, In r ranges -> Length (nth k ranges none_range) <= Length r) /\
   (forall j, (j < k)%nat ->
              Length (nth k ranges none_range)
              < Length (nth j ranges none_range))).
Proof.
  split; [reflexivity|].
  destruct ranges as [|r0 ranges]; [congruence|]. intros _.
  unfold IndexOfShortest. cbn [IndexOfShortest_loop].
  destruct (IndexOfShortest_loop_spec ranges 1 (Length r0) 0)
    as [[Hall Hk]|[j [Hk [Hj [Hb [Hmin Hfirst]]]]]]; cbv zeta; rewrite Hk.
  - simpl. split; [lia|]. split.
    + intros r [Hr|Hr]; [subst r; lra | apply Hall; exact Hr].
    + intros j Hj. lia.
  - change (1 + j)%nat with (S j). simpl. split; [lia|]. split.
    + intros r [Hr|Hr]; [subst r; lra | apply Hmin; exact Hr].
    + intros [|j'] Hj'; [exact Hb | apply Hfirst; lia].
Qed.

Lemma IndexOfShortest_first_shortest_witness :
  let ranges := [mkRange 0 4; mkRange 2 3; mkRange 5 6; mkRange 10 15] in
  ranges <> [] /\
  IndexOfShortest ranges = 1%nat /\
  forall r, In r ranges ->
            Length (nth (IndexOfShortest ranges) ranges none_range)
            <= Length r.
Proof.
  intro ranges.
  assert (Hne : ranges <> []) by discriminate.
  destruct (IndexOfShortest_first_shortest ranges) as [_ Hshort].
  split; [exact Hne|]. split; [reflexivity|].
  exact (proj1 (proj2 (Hshort Hne))).
Defined.

End RangeFacts.







(** ** [CubicCurve] *)

Module CurveFacts.
Import Curve.
Local Open Scope Q_scope.

(** C1.  The cubic built from [CubicInit{y0, s0, y1, s1, w}] with [w > 0]
    takes the value [y0] and the slope [s0] at [0], and the value [y1] and
    the slope [s1] at [w]. *)
Theorem Init_matches_endpoints (y0 s0 y1 s1 w : Q) :
  0 < w ->
  let curve := Init (mkCubicInit y0 s0 y1 s1 w) in
  Evaluate curve 0 == y0 /\
  Derivative curve 0 == s0 /\
  Evaluate curve w == y1 /\
  Derivative curve w == s1.
Proof.
  intros Hw curve. subst curve.
  unfold Evaluate, Derivative, Init; simpl.
  assert (Hn : ~ w == 0) by lra.
  repeat split; field; exact Hn.
Qed.

Lemma Init_matches_endpoints_witness :
  let curve := Init (mkCubicInit 1 (-2) 5 (1 # 2) 4) in
  0 < 4 /\
  Evaluate curve 0 == 1 /\
  Derivative curve 0 == -2 /\
  Evaluate curve 4 == 5 /\
  Derivative curve 4 == 1 # 2.
Proof.
  split; [reflexivity|].
  apply (Init_matches_endpoints 1 (-2) 5 (1 # 2) 4). reflexivity.
Defined.

End CurveFacts.

(** ** [QuadraticCurve] and the derivatives of the two curves *)

Module QuadraticFacts.
Import Scalar ScalarFacts Quadratic.
Local Open Scope Q_scope.



(** X15.  The derivatives of a quadratic fit its values: the value at
    [x + h] is the Taylor sum of the value and the three derivatives at
    [x], and the slope at [x + h] is the slope at [x] plus [h] times the
    second derivative. *)
Theorem Quadratic_Taylor (c : QuadraticCurve) (x h : Q) :
  Evaluate c (x + h)
  == Evaluate c x + h * Derivative c x
     + h * h / 2 * SecondDerivative c x
     + h * h * h / 6 * ThirdDerivative c x /\
  Derivative c (x + h) == Derivative c x + h * SecondDerivative c x.
Proof.
  unfold Evaluate, Derivative, SecondDerivative, ThirdDerivative.
  split; field.
Qed.

(** X16.  The derivatives of a cubic fit its values: the value, the slope
    and the second derivative at [x + h] are the Taylor sums of the value
    and the derivatives at [x]. *)
Theorem Cubic_Taylor (c : Curve.CubicCurve) (x h : Q) :
  Curve.Evaluate c (x + h)
  == Curve.Evaluate c x + h * Curve.Derivative c x
     + h * h / 2 * Curve.SecondDerivative c x
     + h * h * h / 6 * Curve.ThirdDerivative c x /\
  Curve.Derivative c (x + h)
  == Curve.Derivative c x + h * Curve.SecondDerivative c x
     + h * h / 2 * Curve.ThirdDerivative c x /\
  Curve.SecondDerivative c (x + h)
  == Curve.SecondDerivative c x + h * Curve.ThirdDerivative c x.
Proof.
  unfold Curve.Evaluate, Curve.Derivative, Curve.SecondDerivative,
    Curve.ThirdDerivative.
  repeat split; field.
Qed.









End QuadraticFacts.



(** ** [AsyncLoader] *)

Module AsyncLoaderFacts.
Import AsyncLoader.
Local Open Scope nat_scope.

Lemma Inv_init : Inv init.
Proof. constructor; simpl; auto. Qed.

Lemma tl_app_nonempty {A : Type} (l : list A) (x : A) :
  l <> [] -> tl (l ++ [x]) = tl l ++ [x].
Proof. destruct l; [congruence | reflexivity]. Qed.

Ltac inv_some :=
  match goal with
  | H : Some _ = Some ?b |- _ => injection H as H; subst b
  | H : None = Some _ |- _ => discriminate H
  end.

Lemma Inv_LoaderWorker (s s' : loader) :
  LoaderWorker s = Some s' -> Inv s -> Inv s'.
Proof.
  intros Hstep [H1 H2 H3 H4 H5 H6].
  destruct s as [q d sem w c ll fl sub ret].
  unfold LoaderWorker, completed in *; simpl in *.
  destruct w as [| | |res|res|]; try discriminate.
  - (* peek *)
    destruct q as [|res q]; [|destruct (IsBookend res) eqn:E];
      inv_some; constructor; unfold completed; simpl; eauto.
    lia.
  - (* semaphore *)
    destruct sem; inv_some. constructor; unfold completed; simpl; auto.
  - (* Load() *)
    inv_some. destruct H3 as [Hb Hq].
    constructor; unfold completed; simpl; auto.
    + rewrite H2, app_nil_r. reflexivity.
    + apply Forall_app. split; [assumption|]. constructor; [exact Hb|constructor].
  - (* move *)
    destruct H3 as [Hb [q' Hq]]. subst q. simpl in Hstep. inv_some.
    assert (Hc : fl ++ match c with CErase => tl (d ++ [res]) | _ => d ++ [res] end
                 = (fl ++ match c with CErase => tl d | _ => d end) ++ [res]).
    { rewrite <- app_assoc. f_equal.
      destruct c; try reflexivity. apply tl_app_nonempty. exact H4. }
    constructor; unfold completed; simpl; auto.
    + rewrite Hc, <- app_assoc. exact H1.
    + rewrite Hc, app_nil_r. exact H2.
    + destruct c; auto.
      * destruct H4 as [d' Hd]. subst d. eexists. reflexivity.
      * destruct d; [congruence | discriminate].
    + apply Forall_app. split; [assumption|]. constructor; [exact Hb|constructor].
Qed.

Lemma Inv_QueueJob (res : AsyncResource) (s s' : loader) :
  QueueJob res s = Some s' -> Inv s -> Inv s'.
Proof.
  intros Hstep [H1 H2 H3 H4 H5 H6].
  destruct s as [q d sem w c ll fl sub ret].
  unfold QueueJob, completed in *; simpl in *.
  destruct c; try discriminate. inv_some.
  constructor; unfold completed; simpl; auto.
  - rewrite H1, !app_assoc. reflexivity.
  - destruct w; auto.
    + rewrite length_app. simpl. lia.
    + destruct H3 as [Hb [q' Hq]]. subst q. split; [exact Hb|].
      eexists. reflexivity.
    + destruct H3 as [Hb [q' Hq]]. subst q. split; [exact Hb|].
      eexists. reflexivity.
    + destruct H3 as [r [q' [Hq Hb]]]. subst q. exists r. eexists.
      split; [reflexivity | exact Hb].
Qed.

Lemma Inv_StartLoading (s s' : loader) :
  StartLoading s = Some s' -> Inv s -> Inv s'.
Proof.
  intros Hstep [H1 H2 H3 H4 H5 H6].
  destruct s as [q d sem w c ll fl sub ret].
  unfold StartLoading, completed in *; simpl in *.
  destruct c; try discriminate.
  destruct w; try discriminate; inv_some; constructor; unfold completed; simpl; auto.
Qed.

Lemma Inv_TryFinalize (s s' : loader) :
  TryFinalize s = Some s' -> Inv s -> Inv s'.
Proof.
  intros Hstep [H1 H2 H3 H4 H5 H6].
  destruct s as [q d sem w c ll fl sub ret].
  unfold TryFinalize, completed in *; simpl in *.
  destruct c; try discriminate. inv_some.
  constructor; unfold completed; simpl; auto.
Qed.

Lemma Inv_caller_step (s s' : loader) :
  caller_step s = Some s' -> Inv s -> Inv s'.
Proof.
  intros Hstep [H1 H2 H3 H4 H5 H6].
  destruct s as [q d sem w c ll fl sub ret].
  unfold caller_step, completed in *; simpl in *.
  destruct c as [| | |res| |]; try discriminate.
  - (* post *)
    inv_some. constructor; unfold completed; simpl; auto.
    destruct w; auto. lia.
  - (* peek done_ *)
    destruct d as [|res d]; inv_some; constructor; unfold completed; simpl; eauto.
  - (* Finalize() *)
    inv_some. destruct H4 as [d' Hd]. subst d.
    constructor; unfold completed; simpl in *; auto.
    + rewrite H1, <- !app_assoc. reflexivity.
    + rewrite H2, <- !app_assoc. reflexivity.
    + discriminate.
  - (* erase *)
    destruct d as [|res d]; [congruence|]. simpl in *. inv_some.
    constructor; unfold completed; simpl; auto.
    inversion H6; assumption.
  - (* return *)
    inv_some. constructor; unfold completed; simpl; auto.
Qed.

Lemma Inv_step (l : label) (s s' : loader) :
  step l s = Some s' -> Inv s -> Inv s'.
Proof.
  destruct l as [| |[res| | |]]; simpl.
  - apply Inv_LoaderWorker.
  - apply Inv_caller_step.
  - apply Inv_QueueJob.
  - apply Inv_StartLoading.
  - apply Inv_QueueJob.
  - apply Inv_TryFinalize.
Qed.

Lemma Inv_run (sched : list label) :
  forall s s', run sched s = Some s' -> Inv s -> Inv s'.
Proof.
  induction sched as [|l sched IH]; simpl; intros s s' Hrun Hinv.
  - inv_some. exact Hinv.
  - destruct (step l s) as [s1|] eqn:E; [|discriminate].
    apply (IH s1 s' Hrun). apply (Inv_step l s s1 E Hinv).
Qed.

Lemma run_app (sched1 sched2 : list label) :
  forall s,
    run (sched1 ++ sched2) s =
    match run sched1 s with
    | Some s1 => run sched2 s1
    | None => None
    end.
Proof.
  induction sched1 as [|l sched1 IH]; simpl; intro s; [reflexivity|].
  destruct (step l s); [apply IH | reflexivity].
Qed.

(** *** TryFinalize *)

Lemma empty_true_iff {A : Type} (v : list A) : empty v = true <-> v = [].
Proof. destruct v; simpl; split; congruence. Qed.

Lemma caller_drains (d : list AsyncResource) :
  forall s,
    caller s = CFinTop -> done_ s = d ->
    run (repeat Caller (3 * length d + 2)) s = Some (drained s).
Proof.
  induction d as [|res d IH]; intros s Hc Hd;
    destruct s as [q d0 sem w c ll fl sub ret]; simpl in Hc, Hd; subst.
  - simpl. unfold drained; simpl. rewrite app_nil_r. reflexivity.
  - replace (3 * length (res :: d) + 2) with (3 + (3 * length d + 2))
      by (simpl; lia).
    rewrite repeat_app, run_app. simpl repeat. cbn -[repeat Nat.mul Nat.add].
    rewrite IH by reflexivity.
    unfold drained; simpl. rewrite <- app_assoc. reflexivity.
Qed.

Lemma TryFinalize_alone_drains (s : loader) :
  caller s = CIdle ->
  run (TryFinalize_alone (length (done_ s))) s = Some (drained s).
Proof.
  intro Hc. unfold TryFinalize_alone.
  destruct s as [q d sem w c ll fl sub ret]; simpl in Hc; subst.
  cbn -[repeat Nat.mul Nat.add].
  rewrite (caller_drains d) by reflexivity. reflexivity.
Qed.

Lemma finalize_log_prefix_load_log (s : loader) :
  Inv s -> exists rest, load_log s = finalize_log s ++ rest.
Proof.
  intros [_ H2 _ _ _ _]. unfold completed in H2.
  rewrite H2, <- app_assoc. eexists. reflexivity.
Qed.

(** Every step leaves the jobs moved so far in place and at most appends
    one. *)
Lemma completed_step (l : label) (s s' : loader) :
  Inv s -> step l s = Some s' ->
  exists e, completed s' = completed s ++ e.
Proof.
  intros [_ _ H3 H4 _ _] Hstep.
  destruct s as [q d sem w c ll fl sub ret].
  unfold completed; simpl in *.
  destruct l as [| |[r| | |]]; simpl in Hstep.
  - unfold LoaderWorker in Hstep; simpl in Hstep.
    destruct w as [| | |r|r|]; try discriminate.
    + destruct q as [|r q]; [|destruct (IsBookend r)]; inv_some; simpl;
        exists []; symmetry; apply app_nil_r.
    + destruct sem; inv_some. simpl. exists []. symmetry.
      apply app_nil_r.
    + inv_some. simpl. exists []. symmetry. apply app_nil_r.
    + destruct (erase_begin q); inv_some. simpl. exists [r].
      rewrite <- app_assoc. f_equal.
      destruct c; try reflexivity. apply tl_app_nonempty. exact H4.
  - unfold caller_step in Hstep; simpl in Hstep.
    destruct c as [| | |r| |]; try discriminate.
    + inv_some. simpl. exists []. symmetry. apply app_nil_r.
    + destruct d; inv_some; simpl; exists []; symmetry; apply app_nil_r.
    + inv_some. simpl. destruct H4 as [d' Hd]. subst d. exists [].
      rewrite !app_nil_r, <- app_assoc. reflexivity.
    + destruct d; simpl in Hstep; inv_some. simpl. exists [].
      symmetry. apply app_nil_r.
    + inv_some. simpl. exists []. symmetry. apply app_nil_r.
  - unfold QueueJob in Hstep; simpl in Hstep.
    destruct c; try discriminate. inv_some. simpl. exists [].
    symmetry. apply app_nil_r.
  - unfold StartLoading in Hstep; simpl in Hstep.
    destruct c; try discriminate.
    destruct w; try discriminate; inv_some; simpl; exists [];
      symmetry; apply app_nil_r.
  - unfold StopLoadingWhenComplete, QueueJob in Hstep; simpl in Hstep.
    destruct c; try discriminate. inv_some. simpl. exists [].
    symmetry. apply app_nil_r.
  - unfold TryFinalize in Hstep; simpl in Hstep.
    destruct c; try discriminate. inv_some. simpl. exists [].
    symmetry. apply app_nil_r.
Qed.

Lemma finalize_progress_step (target : list AsyncResource)
      (ret0 : list bool) (l : label) (s s' : loader) :
  Inv s -> finalize_progress target ret0 s ->
  no_call l = true -> step l s = Some s' ->
  finalize_progress target ret0 s'.
Proof.
  intros Hinv Hp Hl Hstep.
  destruct (completed_step l s s' Hinv Hstep) as [e' He'].
  destruct Hinv as [_ _ H3 H4 _ _].
  destruct s as [q d sem w c ll fl sub ret].
  unfold finalize_progress, completed in *; simpl in *.
  destruct l as [| |cl]; [| |discriminate]; simpl in Hstep.
  - (* the worker moves *)
    assert (Hsame : caller s' = c /\ returned s' = ret /\
                    finalize_log s' = fl /\ (q = [] -> queue_ s' = [])).
    { unfold LoaderWorker in Hstep; simpl in Hstep.
      destruct w as [| | |r|r|]; try discriminate.
      - destruct q as [|r q]; [|destruct (IsBookend r)]; inv_some; simpl;
          auto.
      - destruct sem; inv_some. simpl. auto.
      - inv_some. simpl. auto.
      - destruct q; simpl in Hstep; inv_some. simpl.
        repeat split; congruence. }
    destruct Hsame as [Hc [Hr [Hf Hq]]]. rewrite Hc, Hr, Hf in *.
    destruct c as [| | |r| |]; try contradiction.
    + destruct Hp as [Hfl [b [Hb Hempty]]].
      split; [exact Hfl|]. exists b. split; [exact Hb|]. auto.
    + destruct Hp as [[e He] Hret]. split; [|exact Hret].
      exists (e ++ e'). rewrite He', He, app_assoc. reflexivity.
    + destruct Hp as [[e He] Hret]. split; [|exact Hret].
      exists (e ++ e'). rewrite He', He, app_assoc. reflexivity.
    + destruct Hp as [[e He] Hret]. split; [|exact Hret].
      exists (e ++ e'). rewrite He', He, app_assoc. reflexivity.
    + exact Hp.
  - (* the calling thread moves *)
    unfold caller_step in Hstep; simpl in Hstep.
    destruct c as [| | |r| |]; try discriminate; try contradiction.
    + destruct Hp as [[e He] Hret].
      destruct d; inv_some; simpl in *.
      * split; [|exact Hret]. exists e. rewrite <- He, app_nil_r.
        reflexivity.
      * split; [|exact Hret]. exists e. exact He.
    + destruct Hp as [[e He] Hret]. inv_some. simpl in *.
      split; [|exact Hret]. exists (e ++ e').
      rewrite He', He, app_assoc. reflexivity.
    + destruct Hp as [[e He] Hret].
      destruct d; simpl in Hstep; inv_some. simpl in *.
      split; [|exact Hret]. exists e. exact He.
    + destruct Hp as [Hfl Hret]. inv_some. simpl.
      split; [exact Hfl|]. exists (empty q). rewrite Hret.
      split; [reflexivity | apply empty_true_iff].
Qed.

Lemma finalize_progress_run (target : list AsyncResource)
      (ret0 : list bool) (sched : list label) :
  forall s s',
    Inv s -> finalize_progress target ret0 s ->
    forallb no_call sched = true -> run sched s = Some s' ->
    finalize_progress target ret0 s'.
Proof.
  induction sched as [|l sched IH]; simpl; intros s s' Hinv Hp Hall Hrun.
  - inv_some. exact Hp.
  - apply andb_true_iff in Hall. destruct Hall as [Hl Hall].
    destruct (step l s) as [s1|] eqn:E; [|discriminate].
    apply (IH s1 s' (Inv_step l s s1 E Hinv)
              (finalize_progress_step target ret0 l s s1 Hinv Hp Hl E)
              Hall Hrun).
Qed.

(** A call of [TryFinalize] during which the worker runs along: when it
    has returned, every job that was in the completed queue at its entry
    has been finalized, in order, possibly followed by jobs completed
    meanwhile; and if it returned [true], the pending queue is empty. *)
Lemma TryFinalize_interleaved (sched : list label) (s s' : loader) :
  Inv s -> caller s = CIdle ->
  forallb no_call sched = true ->
  run (Call CallTryFinalize :: sched) s = Some s' ->
  caller s' = CIdle ->
  exists extra b,
    finalize_log s' = (finalize_log s ++ done_ s) ++ extra /\
    returned s' = returned s ++ [b] /\
    (b = true -> queue_ s' = []).
Proof.
  intros Hinv Hc Hall Hrun Hc'. simpl in Hrun.
  destruct (TryFinalize s) as [s1|] eqn:E; [|discriminate].
  assert (Hp : finalize_progress (finalize_log s ++ done_ s) (returned s) s1).
  { unfold TryFinalize in E. rewrite Hc in E. injection E as E. subst s1.
    unfold finalize_progress, completed; simpl. split; [|reflexivity].
    exists []. rewrite app_nil_r. reflexivity. }
  assert (Hinv1 : Inv s1) by (apply (Inv_TryFinalize s s1 E Hinv)).
  pose proof (finalize_progress_run _ _ sched s1 s' Hinv1 Hp Hall Hrun) as Hp'.
  unfold finalize_progress in Hp'. rewrite Hc' in Hp'.
  destruct Hp' as [[e He] [b [Hb Hq]]]. exists e, b. auto.
Qed.

(** C3.  A call of [TryFinalize] that runs undisturbed calls [Finalize()]
    on every resource of the completed queue, in queue order, leaves the
    completed queue empty, and returns [true] exactly when the pending
    queue is empty, whatever the completed queue holds.  A second call
    right after it calls no [Finalize()] and returns the same value.  When
    the worker runs along during the call, the resources that were in the
    completed queue at its entry are finalized in the same order, followed
    by those completed meanwhile, and a returned [true] means the pending
    queue is empty.  In every state the loader can reach, the resources
    finalized so far are an initial segment of the resources loaded so far,
    in the same order. *)
Theorem TryFinalize_drains_done (s : loader) :
  caller s = CIdle ->
  (exists s1 s2,
     run (TryFinalize_alone (length (done_ s))) s = Some s1 /\
     finalize_log s1 = finalize_log s ++ done_ s /\
     done_ s1 = [] /\
     queue_ s1 = queue_ s /\
     load_log s1 = load_log s /\
     caller s1 = CIdle /\
     returned s1 = returned s ++ [empty (queue_ s)] /\
     run (TryFinalize_alone 0) s1 = Some s2 /\
     finalize_log s2 = finalize_log s1 /\
     done_ s2 = [] /\
     queue_ s2 = queue_ s1 /\
     returned s2 = returned s1 ++ [empty (queue_ s)]) /\
  (empty (queue_ s) = true <-> queue_ s = []) /\
  (forall sched0 sched s',
     run sched0 init = Some s ->
     forallb no_call sched = true ->
     run (Call CallTryFinalize :: sched) s = Some s' ->
     caller s' = CIdle ->
     exists extra b,
       finalize_log s' = (finalize_log s ++ done_ s) ++ extra /\
       returned s' = returned s ++ [b] /\
       (b = true -> queue_ s' = [])) /\
  (forall sched s',
     run sched init = Some s' ->
     exists rest, load_log s' = finalize_log s' ++ rest).
Proof.
  intro Hc. split; [|split; [|split]].
  - exists (drained s), (drained (drained s)).
    split; [apply TryFinalize_alone_drains; exact Hc|].
    do 6 (split; [reflexivity|]).
    split; [apply (TryFinalize_alone_drains (drained s)); reflexivity|].
    simpl. rewrite app_nil_r. repeat split; reflexivity.
  - apply empty_true_iff.
  - intros sched0 sched s' Hrun0 Hall Hrun Hc'.
    apply (TryFinalize_interleaved sched s s'); try assumption.
    apply (Inv_run sched0 init s Hrun0 Inv_init).
  - intros sched s' Hrun. apply finalize_log_prefix_load_log.
    apply (Inv_run sched init s' Hrun Inv_init).
Qed.

(** *** The sentinel *)

Lemma Forall_not_bookend_not_In (res : AsyncResource)
      (l : list AsyncResource) :
  IsBookend res = true -> Forall not_bookend l -> ~ In res l.
Proof.
  intros Hb Hl Hin. rewrite Forall_forall in Hl.
  specialize (Hl res Hin). unfold not_bookend in Hl. congruence.
Qed.

Lemma finalize_log_not_bookend (s : loader) :
  Inv s -> Forall not_bookend (finalize_log s).
Proof.
  intros [_ H2 _ _ H5 _]. unfold completed in H2. rewrite H2 in H5.
  apply Forall_app in H5. destruct H5 as [H5 _].
  apply Forall_app in H5. tauto.
Qed.

(** C9.  A resource whose file name is the reserved one is taken for the
    sentinel whatever its address: when the worker finds it at the head of
    the pending queue it leaves its loop, calling nothing and moving
    nothing; and in every state the loader can reach, [Load()] has not been
    called on it, it is not in the completed queue, and [Finalize()] has
    not been called on it. *)
Theorem bookend_filename_is_sentinel (res : AsyncResource) :
  filename res = kBookendFileName ->
  (forall s q,
     worker_thread_ s = WTop -> queue_ s = res :: q ->
     LoaderWorker s = Some (set_worker WExit s)) /\
  (forall sched s,
     run sched init = Some s ->
     ~ In res (load_log s) /\ ~ In res (done_ s) /\
     ~ In res (finalize_log s)).
Proof.
  intro Hname.
  assert (Hb : IsBookend res = true).
  { unfold IsBookend. rewrite Hname. apply String.eqb_refl. }
  split.
  - intros s q Hw Hq. unfold LoaderWorker. rewrite Hw, Hq, Hb. reflexivity.
  - intros sched s Hrun.
    pose proof (Inv_run sched init s Hrun Inv_init) as Hinv.
    pose proof (finalize_log_not_bookend s Hinv) as Hf.
    destruct Hinv as [_ _ _ _ H5 H6].
    repeat split; apply Forall_not_bookend_not_In; assumption.
Qed.




(** *** The worker: order of loads and exit *)

Lemma before_sentinel_app (l1 l2 : list AsyncResource) :
  Forall not_bookend l1 ->
  before_sentinel (l1 ++ l2) = l1 ++ before_sentinel l2.
Proof.
  induction 1 as [|res l1 Hres _ IH]; simpl; [reflexivity|].
  unfold not_bookend in Hres. rewrite Hres, IH. reflexivity.
Qed.

Lemma before_sentinel_jobs (js later : list AsyncResource)
      (res : AsyncResource) :
  Forall not_bookend js -> IsBookend res = true ->
  before_sentinel (js ++ res :: later) = js.
Proof.
  intros Hjs Hb. rewrite before_sentinel_app by exact Hjs.
  simpl. rewrite Hb. apply app_nil_r.
Qed.

Lemma load_log_prefix_before_sentinel (s : loader) :
  Inv s -> exists rest, before_sentinel (submitted s) = load_log s ++ rest.
Proof.
  intros [H1 H2 H3 _ H5 _].
  assert (Hsub : exists rest, submitted s = load_log s ++ rest).
  { rewrite H1, H2.
    destruct (worker_thread_ s) as [| | |res|res|]; simpl;
      try (rewrite app_nil_r; eexists; reflexivity).
    destruct H3 as [_ [q Hq]]. exists q.
    rewrite Hq, <- app_assoc. reflexivity. }
  destruct Hsub as [rest Hrest]. rewrite Hrest.
  rewrite before_sentinel_app by exact H5. eexists. reflexivity.
Qed.

Lemma load_log_at_exit (s : loader) :
  Inv s -> worker_thread_ s = WExit ->
  load_log s = before_sentinel (submitted s) /\
  completed s = load_log s /\
  exists res q, queue_ s = res :: q /\ IsBookend res = true.
Proof.
  intros [H1 H2 H3 _ H5 _] Hw. rewrite Hw in H2, H3. simpl in H2.
  rewrite app_nil_r in H2. destruct H3 as [res [q [Hq Hb]]].
  split; [|split; [congruence | eauto]].
  rewrite H1, <- H2, Hq. symmetry.
  apply before_sentinel_jobs; assumption.
Qed.

(** From the head of its loop, the worker left alone reaches the first
    sentinel of the pending queue and leaves the loop. *)
Lemma worker_exits_from_top (q : list AsyncResource) :
  forall s,
    worker_thread_ s = WTop -> queue_ s = q ->
    existsb IsBookend q = true ->
    exists n s',
      run (repeat Worker n) s = Some s' /\
      worker_thread_ s' = WExit /\ submitted s' = submitted s.
Proof.
  induction q as [|res q IH]; intros s Hw Hq Hex; [discriminate|].
  destruct s as [q0 d sem w c ll fl sub ret]; simpl in Hw, Hq; subst.
  destruct (IsBookend res) eqn:Hb.
  - exists 1, (set_worker WExit
                 (mkLoader (res :: q) d sem WTop c ll fl sub ret)).
    simpl. unfold LoaderWorker; simpl. rewrite Hb. auto.
  - simpl in Hex. rewrite Hb in Hex. simpl in Hex.
    destruct (IH (mkLoader q (d ++ [res]) sem WTop c (ll ++ [res])
                           fl sub ret) eq_refl eq_refl Hex)
      as [n [s' [Hrun [Hw' Hsub]]]].
    exists (3 + n), s'. rewrite repeat_app, run_app.
    simpl. unfold LoaderWorker; simpl. rewrite Hb. simpl. auto.
Qed.

Lemma worker_exits (s : loader) :
  Inv s -> running (worker_thread_ s) = true -> caller s <> CSemPost ->
  existsb IsBookend (queue_ s) = true ->
  exists n s',
    run (repeat Worker n) s = Some s' /\
    worker_thread_ s' = WExit /\ submitted s' = submitted s.
Proof.
  intros [_ _ H3 _ _ _] Hrun Hc Hex.
  destruct s as [q d sem w c ll fl sub ret]; simpl in *.
  destruct w as [| | |res|res|]; try discriminate.
  - apply (worker_exits_from_top q); auto.
  - assert (Hsem : length q <= sem) by (destruct c; try lia; congruence).
    destruct q as [|res q]; [discriminate|]. simpl in Hsem.
    destruct sem as [|sem]; [lia|].
    destruct (worker_exits_from_top (res :: q)
                (mkLoader (res :: q) d sem WTop c ll fl sub ret)
                eq_refl eq_refl Hex) as [n [s' [Hr [Hw Hs]]]].
    exists (1 + n), s'. rewrite repeat_app, run_app. simpl. auto.
  - destruct H3 as [Hb [q' Hq]]. subst q.
    simpl in Hex. rewrite Hb in Hex. simpl in Hex.
    destruct (worker_exits_from_top q'
                (mkLoader q' (d ++ [res]) sem WTop c (ll ++ [res])
                          fl sub ret)
                eq_refl eq_refl Hex) as [n [s' [Hr [Hw Hs]]]].
    exists (2 + n), s'. rewrite repeat_app, run_app. simpl. auto.
  - destruct H3 as [Hb [q' Hq]]. subst q.
    simpl in Hex. rewrite Hb in Hex. simpl in Hex.
    destruct (worker_exits_from_top q'
                (mkLoader q' (d ++ [res]) sem WTop c ll fl sub ret)
                eq_refl eq_refl Hex) as [n [s' [Hr [Hw Hs]]]].
    exists (1 + n), s'. rewrite repeat_app, run_app. simpl. auto.
Qed.

(** C2.  In every state the loader can reach, under every interleaving of
    the two threads: the resources [Load()] was called on are an initial
    segment, in submission order, of the jobs submitted before the first
    sentinel; every job moved to the completed queue has been loaded
    first, and at most one loaded job is not yet moved; the submitted jobs
    are the moved ones followed by the pending ones; no sentinel is ever
    loaded or moved.  When the worker has left its loop, every job before
    the sentinel has been loaded and moved, and the sentinel heads the
    pending queue.  And whenever a sentinel is pending, the calling thread
    is not in the middle of a [QueueJob], and the worker is alive, the
    worker left to run reaches that exit. *)
Theorem LoaderWorker_loads_in_submission_order
        (sched : list label) (s : loader) :
  run sched init = Some s ->
  (exists rest, before_sentinel (submitted s) = load_log s ++ rest) /\
  (load_log s = completed s ++ in_flight (worker_thread_ s) /\
   length (in_flight (worker_thread_ s)) <= 1) /\
  submitted s = completed s ++ queue_ s /\
  (Forall not_bookend (load_log s) /\ Forall not_bookend (done_ s)) /\
  (forall js later res,
     Forall not_bookend js -> IsBookend res = true ->
     submitted s = js ++ res :: later ->
     before_sentinel (submitted s) = js) /\
  (worker_thread_ s = WExit ->
   load_log s = before_sentinel (submitted s) /\
   completed s = load_log s /\
   exists res q, queue_ s = res :: q /\ IsBookend res = true) /\
  (running (worker_thread_ s) = true -> caller s <> CSemPost ->
   existsb IsBookend (queue_ s) = true ->
   exists n s',
     run (repeat Worker n) s = Some s' /\
     worker_thread_ s' = WExit /\
     load_log s' = before_sentinel (submitted s)).
Proof.
  intro Hrun.
  pose proof (Inv_run sched init s Hrun Inv_init) as Hinv.
  split; [apply load_log_prefix_before_sentinel; exact Hinv|].
  split.
  { split; [apply (inv_loaded s Hinv)|].
    destruct (worker_thread_ s); simpl; lia. }
  split; [apply (inv_submitted s Hinv)|].
  split; [split; [apply (inv_load_log s Hinv) | apply (inv_done s Hinv)]|].
  split.
  { intros js later res Hjs Hb Hsub. rewrite Hsub.
    apply before_sentinel_jobs; assumption. }
  split; [apply load_log_at_exit; exact Hinv|].
  intros Hw Hc Hex.
  destruct (worker_exits s Hinv Hw Hc Hex) as [n [s' [Hr [Hw' Hs]]]].
  exists n, s'. split; [exact Hr|]. split; [exact Hw'|].
  pose proof (Inv_run _ s s' Hr Hinv) as Hinv'.
  destruct (load_log_at_exit s' Hinv' Hw') as [Hl _].
  rewrite Hl, Hs. reflexivity.
Qed.

(** *** The theorems on a concrete session *)

Lemma run_session_queued : run session_queued init = Some state_queued.
Proof. vm_compute. reflexivity. Qed.

Lemma run_session_exited : run session_exited init = Some state_exited.
Proof. vm_compute. reflexivity. Qed.

Lemma run_session_impostor :
  run session_impostor init = Some state_impostor.
Proof. vm_compute. reflexivity. Qed.

Lemma LoaderWorker_loads_in_submission_order_witness :
  (run session_exited init = Some state_exited /\
   worker_thread_ state_exited = WExit /\
   load_log state_exited = before_sentinel (submitted state_exited) /\
   completed state_exited = load_log state_exited /\
   exists res q, queue_ state_exited = res :: q /\ IsBookend res = true) /\
  (run session_queued init = Some state_queued /\
   running (worker_thread_ state_queued) = true /\
   caller state_queued <> CSemPost /\
   existsb IsBookend (queue_ state_queued) = true /\
   exists n s',
     run (repeat Worker n) state_queued = Some s' /\
     worker_thread_ s' = WExit /\
     load_log s' = before_sentinel (submitted state_queued)).
Proof.
  split.
  - split; [exact run_session_exited|]. split; [reflexivity|].
    destruct (LoaderWorker_loads_in_submission_order
                session_exited state_exited run_session_exited)
      as [_ [_ [_ [_ [_ [Hexit _]]]]]].
    apply Hexit. reflexivity.
  - split; [exact run_session_queued|]. split; [reflexivity|].
    split; [discriminate|]. split; [reflexivity|].
    destruct (LoaderWorker_loads_in_submission_order
                session_queued state_queued run_session_queued)
      as [_ [_ [_ [_ [_ [_ Hprogress]]]]]].
    apply Hprogress; [reflexivity | discriminate | reflexivity].
Defined.

Lemma TryFinalize_drains_done_witness :
  (caller state_exited = CIdle /\
   done_ state_exited = [texture_a; texture_b] /\
   exists s1 s2,
     run (TryFinalize_alone (length (done_ state_exited))) state_exited
     = Some s1 /\
     finalize_log s1 = finalize_log state_exited ++ done_ state_exited /\
     done_ s1 = [] /\
     queue_ s1 = queue_ state_exited /\
     load_log s1 = load_log state_exited /\
     caller s1 = CIdle /\
     returned s1 = returned state_exited ++ [empty (queue_ state_exited)] /\
     run (TryFinalize_alone 0) s1 = Some s2 /\
     finalize_log s2 = finalize_log s1 /\
     done_ s2 = [] /\
     queue_ s2 = queue_ s1 /\
     returned s2 = returned s1 ++ [empty (queue_ state_exited)]) /\
  (caller state_queued = CIdle /\
   run session_queued init = Some state_queued /\
   forallb no_call finalize_interleaved = true /\
   run (Call CallTryFinalize :: finalize_interleaved) state_queued
   = Some state_finalized /\
   caller state_finalized = CIdle /\
   done_ state_queued = [texture_a] /\
   finalize_log state_finalized = [texture_a; texture_b] /\
   exists extra b,
     finalize_log state_finalized
     = (finalize_log state_queued ++ done_ state_queued) ++ extra /\
     returned state_finalized = returned state_queued ++ [b] /\
     (b = true -> queue_ state_finalized = [])).
Proof.
  split.
  - split; [reflexivity|]. split; [reflexivity|].
    exact (proj1 (TryFinalize_drains_done state_exited eq_refl)).
  - assert (Hrun : run (Call CallTryFinalize :: finalize_interleaved)
                       state_queued = Some state_finalized)
      by (vm_compute; reflexivity).
    split; [reflexivity|]. split; [exact run_session_queued|].
    split; [reflexivity|]. split; [exact Hrun|].
    split; [reflexivity|]. split; [reflexivity|]. split; [reflexivity|].
    destruct (TryFinalize_drains_done state_queued eq_refl)
      as [_ [_ [Hinter _]]].
    apply (Hinter session_queued finalize_interleaved state_finalized
             run_session_queued eq_refl Hrun eq_refl).
Defined.

Lemma bookend_filename_is_sentinel_witness :
  filename impostor = kBookendFileName /\
  addr impostor <> addr bookend /\
  run session_impostor init = Some state_impostor /\
  worker_thread_ state_impostor = WTop /\
  queue_ state_impostor = [impostor; texture_b] /\
  LoaderWorker state_impostor = Some (set_worker WExit state_impostor) /\
  ~ In impostor (load_log state_impostor) /\
  ~ In impostor (done_ state_impostor) /\
  ~ In impostor (finalize_log state_impostor).
Proof.
  split; [reflexivity|]. split; [discriminate|].
  destruct (bookend_filename_is_sentinel impostor eq_refl) as [Hexit Hnever].
  split; [exact run_session_impostor|]. split; [reflexivity|].
  split; [reflexivity|]. split.
  - apply (Hexit state_impostor [texture_b]); reflexivity.
  - apply (Hnever session_impostor state_impostor run_session_impostor).
Defined.


(** After the exit, with both textures loaded, a call of [TryFinalize]
    finalizes both and still returns [false]; so does the next one, with
    nothing left to finalize. *)
Example TryFinalize_false_after_exit :
  run (TryFinalize_alone 2 ++ TryFinalize_alone 0) state_exited
  = Some (mkLoader [bookend] [] 3 WExit CIdle
            [texture_a; texture_b] [texture_a; texture_b]
            [texture_a; texture_b; bookend] [false; false]).
Proof. vm_compute. reflexivity. Qed.

(** *** Erasures, wake-ups, restart and destruction *)

Lemma erases_finalized_step (l : label) (s s' : loader) :
  Inv s -> erases_finalized s -> step l s = Some s' -> erases_finalized s'.
Proof.
  intros [_ _ _ H4 _ _] He Hstep.
  destruct s as [q d sem w c ll fl sub ret].
  unfold erases_finalized in *; simpl in *.
  destruct l as [| |[r| | |]]; simpl in Hstep.
  - unfold LoaderWorker in Hstep; simpl in Hstep.
    destruct w as [| | |r|r|]; try discriminate.
    + destruct q as [|r q]; [|destruct (IsBookend r)]; inv_some; exact He.
    + destruct sem; inv_some. exact He.
    + inv_some. exact He.
    + destruct (erase_begin q); inv_some. simpl.
      destruct c; auto.
      destruct He as [res [d' [f [Hd Hf]]]]. subst d.
      exists res, (d' ++ [r]), f. auto.
  - unfold caller_step in Hstep; simpl in Hstep.
    destruct c as [| | |r| |]; try discriminate.
    + inv_some. exact I.
    + destruct d; inv_some; exact I.
    + inv_some. simpl. destruct H4 as [d' Hd]. subst d.
      exists r, d', fl. auto.
    + destruct (erase_begin d); inv_some. exact I.
    + inv_some. exact I.
  - unfold QueueJob in Hstep; simpl in Hstep.
    destruct c; try discriminate. inv_some. exact I.
  - unfold StartLoading in Hstep; simpl in Hstep.
    destruct c; try discriminate.
    destruct w; try discriminate; inv_some; exact I.
  - unfold StopLoadingWhenComplete, QueueJob in Hstep; simpl in Hstep.
    destruct c; try discriminate. inv_some. exact I.
  - unfold TryFinalize in Hstep; simpl in Hstep.
    destruct c; try discriminate. inv_some. exact I.
Qed.

Lemma erases_finalized_run (sched : list label) :
  forall s s',
    Inv s -> erases_finalized s -> run sched s = Some s' ->
    erases_finalized s'.
Proof.
  induction sched as [|l sched IH]; simpl; intros s s' Hinv He Hrun.
  - inv_some. exact He.
  - destruct (step l s) as [s1|] eqn:E; [|discriminate].
    apply (IH s1 s' (Inv_step l s s1 E Hinv)
              (erases_finalized_step l s s1 Hinv He E) Hrun).
Qed.

(** X21.  In every state the loader can reach: the job the worker is
    loading or about to move is the head of the pending queue, and the one
    about to be moved is the last one [Load()] was called on; the resource
    the calling thread is about to finalize is the head of the completed
    queue, and the one about to be erased from it is the last one
    finalized.  So neither [erase] is ever applied to an empty queue: the
    worker cannot move only when it was not started, has left its loop, or
    waits on a semaphore at zero, and a call of the calling thread can
    always go on. *)
Theorem erase_removes_handled_job (sched : list label) (s : loader) :
  run sched init = Some s ->
  (forall res,
     worker_thread_ s = WLoad res \/ worker_thread_ s = WMove res ->
     exists q, queue_ s = res :: q) /\
  (forall res,
     worker_thread_ s = WMove res ->
     exists l, load_log s = l ++ [res]) /\
  (forall res, caller s = CFinalize res -> exists d, done_ s = res :: d) /\
  (caller s = CErase ->
   exists res d f, done_ s = res :: d /\ finalize_log s = f ++ [res]) /\
  (LoaderWorker s = None ->
   worker_thread_ s = WNone \/ worker_thread_ s = WExit \/
   (worker_thread_ s = WSemWait /\ job_semaphore_ s = 0)) /\
  (caller_step s = None -> caller s = CIdle).
Proof.
  intro Hrun.
  pose proof (Inv_run sched init s Hrun Inv_init) as Hinv.
  assert (He : erases_finalized s)
    by (apply (erases_finalized_run sched init s Inv_init I Hrun)).
  destruct Hinv as [_ H2 H3 H4 _ _].
  unfold erases_finalized in He.
  destruct s as [q d sem w c ll fl sub ret]; simpl in *.
  split; [|split; [|split; [|split; [|split]]]].
  - intros res [Hw|Hw]; subst w; tauto.
  - intros res Hw. subst w. simpl in H2. eexists. exact H2.
  - intros res Hc. subst c. exact H4.
  - intro Hc. subst c. exact He.
  - unfold LoaderWorker; simpl. intro Hnone.
    destruct w as [| | |res|res|]; auto; try discriminate.
    + destruct q as [|r q]; [|destruct (IsBookend r)]; discriminate.
    + destruct sem; [auto | discriminate].
    + destruct H3 as [_ [q' Hq]]. subst q. discriminate.
  - unfold caller_step; simpl. intro Hnone.
    destruct c as [| | |res| |]; auto; try discriminate.
    + destruct d; discriminate.
    + destruct He as [res [d' [f [Hd _]]]]. subst d. discriminate.
Qed.

Lemma erase_removes_handled_job_witness :
  run session_erasing init = Some state_erasing /\
  caller state_erasing = CErase /\
  exists res d f,
    done_ state_erasing = res :: d /\
    finalize_log state_erasing = f ++ [res].
Proof.
  assert (Hrun : run session_erasing init = Some state_erasing)
    by (vm_compute; reflexivity).
  split; [exact Hrun|]. split; [reflexivity|].
  destruct (erase_removes_handled_job session_erasing state_erasing Hrun)
    as [_ [_ [_ [Herase _]]]].
  apply Herase. reflexivity.
Defined.

(** X22.  No wake-up is lost: in every state the loader can reach, if the
    worker waits on a semaphore that is at zero and the calling thread is
    not between the push and the post of a [QueueJob], the pending queue
    is empty. *)
Theorem worker_blocks_only_on_empty_queue (sched : list label) (s : loader) :
  run sched init = Some s ->
  worker_thread_ s = WSemWait -> job_semaphore_ s = 0 ->
  caller s <> CSemPost ->
  queue_ s = [].
Proof.
  intros Hrun Hw Hsem Hc.
  pose proof (inv_worker s (Inv_run sched init s Hrun Inv_init)) as H3.
  rewrite Hw, Hsem in H3.
  destruct (caller s); try congruence;
    destruct (queue_ s); simpl in H3; try reflexivity; lia.
Qed.

Lemma worker_blocks_only_on_empty_queue_witness :
  run session_waiting init = Some state_waiting /\
  worker_thread_ state_waiting = WSemWait /\
  job_semaphore_ state_waiting = 0 /\
  caller state_waiting <> CSemPost /\
  queue_ state_waiting = [].
Proof.
  assert (Hrun : run session_waiting init = Some state_waiting)
    by (vm_compute; reflexivity).
  assert (Hc : caller state_waiting <> CSemPost) by discriminate.
  split; [exact Hrun|]. split; [reflexivity|]. split; [reflexivity|].
  split; [exact Hc|].
  apply (worker_blocks_only_on_empty_queue session_waiting state_waiting
           Hrun eq_refl eq_refl Hc).
Defined.

Lemma stopped_step (l : label) (s s' : loader) :
  Inv s -> stopped s -> step l s = Some s' ->
  stopped s' /\ load_log s' = load_log s /\ completed s' = completed s.
Proof.
  intros Hinv [[res [q' [Hq Hb]]] Hw] Hstep.
  destruct (completed_step l s s' Hinv Hstep) as [e He].
  destruct Hinv as [_ _ H3 H4 _ _].
  destruct s as [q d sem w c ll fl sub ret].
  unfold stopped, completed in *; simpl in *. subst q.
  destruct l as [| |[r| | |]]; simpl in Hstep.
  - unfold LoaderWorker in Hstep; simpl in Hstep.
    destruct Hw as [Hw|Hw]; subst w; [discriminate|].
    rewrite Hb in Hstep. inv_some. simpl. eauto 10.
  - unfold caller_step in Hstep; simpl in Hstep.
    destruct c as [| | |r| |]; try discriminate.
    + inv_some. simpl. eauto 10.
    + destruct d; inv_some; simpl; eauto 10.
    + inv_some. simpl. destruct H4 as [d' Hd]. subst d. simpl.
      rewrite <- app_assoc. eauto 10.
    + destruct d; simpl in Hstep; inv_some. simpl. eauto 10.
    + inv_some. simpl. eauto 10.
  - unfold QueueJob in Hstep; simpl in Hstep.
    destruct c; try discriminate. inv_some. simpl. eauto 10.
  - unfold StartLoading in Hstep; simpl in Hstep.
    destruct c; try discriminate.
    destruct w; try discriminate; inv_some; simpl; eauto 10.
  - unfold StopLoadingWhenComplete, QueueJob in Hstep; simpl in Hstep.
    destruct c; try discriminate. inv_some. simpl. eauto 10.
  - unfold TryFinalize in Hstep; simpl in Hstep.
    destruct c; try discriminate. inv_some. simpl. eauto 10.
Qed.

Lemma stopped_run (sched : list label) :
  forall s s',
    Inv s -> stopped s -> run sched s = Some s' ->
    stopped s' /\ load_log s' = load_log s /\ completed s' = completed s.
Proof.
  induction sched as [|l sched IH]; simpl; intros s s' Hinv Hs Hrun.
  - inv_some. auto.
  - destruct (step l s) as [s1|] eqn:E; [|discriminate].
    destruct (stopped_step l s s1 Hinv Hs E) as [Hs1 [Hl1 Hc1]].
    destruct (IH s1 s' (Inv_step l s s1 E Hinv) Hs1 Hrun)
      as [Hs' [Hl' Hc']].
    split; [exact Hs'|]. split; congruence.
Qed.

(** X23.  Once the worker has left its loop, loading is over for good:
    through every later step of either thread, including calls of
    [StartLoading] and of [QueueJob], no further [Load()] is called and no
    further job is moved to the completed queue; a worker started again
    finds the sentinel and leaves at once. *)
Theorem no_load_after_exit (sched : list label) (s : loader) :
  run sched init = Some s ->
  worker_thread_ s = WExit ->
  forall sched' s',
    run sched' s = Some s' ->
    load_log s' = load_log s /\
    completed s' = completed s /\
    (worker_thread_ s' = WExit \/ worker_thread_ s' = WTop) /\
    (worker_thread_ s' = WTop ->
     LoaderWorker s' = Some (set_worker WExit s')).
Proof.
  intros Hrun Hw sched' s' Hrun'.
  pose proof (Inv_run sched init s Hrun Inv_init) as Hinv.
  assert (Hs : stopped s).
  { split; [|left; exact Hw].
    pose proof (inv_worker s Hinv) as H3. rewrite Hw in H3. exact H3. }
  destruct (stopped_run sched' s s' Hinv Hs Hrun')
    as [[[res [q [Hq Hb]]] Hw'] [Hl Hc]].
  split; [exact Hl|]. split; [exact Hc|]. split; [exact Hw'|].
  intro Htop. unfold LoaderWorker. rewrite Htop, Hq, Hb. reflexivity.
Qed.

Lemma no_load_after_exit_witness :
  run session_exited init = Some state_exited /\
  worker_thread_ state_exited = WExit /\
  exists s',
    run session_restart state_exited = Some s' /\
    queue_ s' = [bookend; texture_b] /\
    worker_thread_ s' = WExit /\
    load_log s' = load_log state_exited /\
    completed s' = completed state_exited.
Proof.
  split; [exact run_session_exited|]. split; [reflexivity|].
  assert (Hrun : run session_restart state_exited
                 = Some (state_after (session_exited ++ session_restart)))
    by (vm_compute; reflexivity).
  eexists. split; [exact Hrun|]. split; [reflexivity|].
  split; [reflexivity|].
  destruct (no_load_after_exit session_exited state_exited
              run_session_exited eq_refl session_restart _ Hrun)
    as [Hl [Hc _]].
  split; [exact Hl | exact Hc].
Defined.

Lemma worker_keeps_finalize_log (n : nat) :
  forall s s',
    run (repeat Worker n) s = Some s' -> finalize_log s' = finalize_log s.
Proof.
  induction n as [|n IH]; simpl; intros s s' Hr.
  - inv_some. reflexivity.
  - destruct (LoaderWorker s) as [s1|] eqn:E; [|discriminate].
    rewrite (IH s1 s' Hr).
    unfold LoaderWorker in E.
    destruct (worker_thread_ s); try discriminate.
    + destruct (queue_ s) as [|res q]; [|destruct (IsBookend res)];
        inv_some; reflexivity.
    + destruct (job_semaphore_ s); inv_some. reflexivity.
    + inv_some. reflexivity.
    + destruct (erase_begin (queue_ s)); inv_some. reflexivity.
Qed.

(** X24.  The destructor does not deadlock.  From every state the loader
    can reach between two calls, [StopLoadingWhenComplete()] goes through;
    if no worker is alive the wait returns at once, and if one is alive it
    reaches its exit when left to run, after which the wait returns.  Up
    to then the worker has loaded every job submitted before the first
    sentinel, and the destructor has finalized nothing. *)
Theorem destructor_returns (sched : list label) (s : loader) :
  run sched init = Some s ->
  caller s = CIdle ->
  exists s1,
    run destructor_entry s = Some s1 /\
    submitted s1 = submitted s ++ [bookend] /\
    (running (worker_thread_ s) = false -> SDL_WaitThread s1 = Some s1) /\
    (running (worker_thread_ s) = true ->
     exists n s2,
       run (repeat Worker n) s1 = Some s2 /\
       SDL_WaitThread s2 = Some s2 /\
       load_log s2 = before_sentinel (submitted s1) /\
       finalize_log s2 = finalize_log s).
Proof.
  intros Hrun Hc.
  pose proof (Inv_run sched init s Hrun Inv_init) as Hinv.
  destruct s as [q d sem w c ll fl sub ret]; simpl in Hc; subst c.
  set (s1 := mkLoader (q ++ [bookend]) d (S sem) w CIdle ll fl
                      (sub ++ [bookend]) ret).
  assert (Hrun1 : run destructor_entry
                      (mkLoader q d sem w CIdle ll fl sub ret) = Some s1)
    by reflexivity.
  exists s1. split; [exact Hrun1|]. split; [reflexivity|].
  pose proof (Inv_run _ _ _ Hrun1 Hinv) as Hinv1.
  split.
  - simpl. intro Hw. unfold SDL_WaitThread. simpl.
    destruct w; try discriminate; reflexivity.
  - simpl. intro Hw.
    assert (Hex : existsb IsBookend (queue_ s1) = true).
    { simpl. rewrite existsb_app. simpl. apply orb_true_r. }
    assert (Hc1 : caller s1 <> CSemPost) by (simpl; discriminate).
    destruct (worker_exits s1 Hinv1 Hw Hc1 Hex) as [n [s2 [Hr [Hw2 Hs2]]]].
    exists n, s2. split; [exact Hr|].
    pose proof (Inv_run _ _ _ Hr Hinv1) as Hinv2.
    destruct (load_log_at_exit s2 Hinv2 Hw2) as [Hl _].
    split; [unfold SDL_WaitThread; rewrite Hw2; reflexivity|].
    split; [rewrite Hl, Hs2; reflexivity|].
    apply (worker_keeps_finalize_log n s1 s2 Hr).
Qed.

Lemma destructor_returns_witness :
  (run [] init = Some init /\ caller init = CIdle /\
   running (worker_thread_ init) = false /\
   exists s1,
     run destructor_entry init = Some s1 /\ SDL_WaitThread s1 = Some s1) /\
  (run session_queued init = Some state_queued /\
   caller state_queued = CIdle /\
   running (worker_thread_ state_queued) = true /\
   exists s1 n s2,
     run destructor_entry state_queued = Some s1 /\
     run (repeat Worker n) s1 = Some s2 /\
     SDL_WaitThread s2 = Some s2 /\
     load_log s2 = before_sentinel (submitted s1) /\
     finalize_log s2 = finalize_log state_queued).
Proof.
  split.
  - split; [reflexivity|]. split; [reflexivity|]. split; [reflexivity|].
    destruct (destructor_returns [] init eq_refl eq_refl)
      as [s1 [Hr [_ [Hidle _]]]].
    exists s1. split; [exact Hr | apply Hidle; reflexivity].
  - split; [exact run_session_queued|]. split; [reflexivity|].
    split; [reflexivity|].
    destruct (destructor_returns session_queued state_queued
                run_session_queued eq_refl)
      as [s1 [Hr [_ [_ Halive]]]].
    destruct (Halive eq_refl) as [n [s2 H]].
    exists s1, n, s2. split; [exact Hr | exact H].
Defined.

(** X25.  When a call of [TryFinalize], with the worker running along,
    returns [true], the pending queue is empty and [Load()] has been
    called on every job submitted so far, each of which is finalized or
    waits in the completed queue.  It need not be finalized: there is a
    run in which [TryFinalize] returns [true] while a loaded resource is
    still in the completed queue. *)
Theorem TryFinalize_true_means_loaded :
  (forall sched0 s sched s',
     run sched0 init = Some s -> caller s = CIdle ->
     forallb no_call sched = true ->
     run (Call CallTryFinalize :: sched) s = Some s' ->
     caller s' = CIdle ->
     exists b,
       returned s' = returned s ++ [b] /\
       (b = true ->
        queue_ s' = [] /\
        load_log s' = submitted s' /\
        submitted s' = finalize_log s' ++ done_ s')) /\
  (exists sched s',
     run sched init = Some s' /\ caller s' = CIdle /\
     returned s' = [true] /\ done_ s' <> [] /\ finalize_log s' = []).
Proof.
  split.
  - intros sched0 s sched s' Hrun0 Hc Hall Hrun Hc'.
    pose proof (Inv_run sched0 init s Hrun0 Inv_init) as Hinv.
    destruct (TryFinalize_interleaved sched s s' Hinv Hc Hall Hrun Hc')
      as [extra [b [_ [Hret Hq]]]].
    exists b. split; [exact Hret|]. intro Hb. specialize (Hq Hb).
    pose proof (Inv_run _ s s' Hrun Hinv) as [H1 H2 H3 _ _ _].
    unfold completed in H1, H2. rewrite Hc' in H1, H2. rewrite Hq in H1, H3.
    rewrite app_nil_r in H1.
    split; [exact Hq|]. split; [|exact H1].
    rewrite H2, H1.
    destruct (worker_thread_ s') as [| | |res|res|]; simpl;
      try apply app_nil_r.
    destruct H3 as [_ [q Hq']]. discriminate.
  - exists session_race, state_race.
    split; [vm_compute; reflexivity|].
    repeat split; try reflexivity. discriminate.
Qed.

Lemma TryFinalize_true_means_loaded_witness :
  exists b,
    returned state_race = [] ++ [b] /\
    (b = true ->
     queue_ state_race = [] /\
     load_log state_race = submitted state_race /\
     submitted state_race = finalize_log state_race ++ done_ state_race).
Proof.
  destruct TryFinalize_true_means_loaded as [Hmain _].
  apply (Hmain [Call (CallQueueJob texture_a); Caller;
                Call CallStartLoading; Worker; Worker]
               (state_after [Call (CallQueueJob texture_a); Caller;
                             Call CallStartLoading; Worker; Worker])
               [Caller; Worker; Caller] state_race).
  - vm_compute. reflexivity.
  - reflexivity.
  - reflexivity.
  - vm_compute. reflexivity.
  - reflexivity.
Defined.

End AsyncLoaderFacts.

(** ** String helpers of [utilities.cpp] *)

Module UtilitiesFacts.
Import Ascii Utilities.
Local Open Scope nat_scope.












Lemma rfind_None (s : string) : rfind "/" s = None <-> no_slash s.
Proof.
  unfold no_slash. induction s as [|a rest IH]; simpl.
  - split; [intros _ [] | reflexivity].
  - destruct (rfind "/" rest) as [i|].
    + split; [discriminate|]. intro H. exfalso.
      assert (Hr : ~ In "/"%char (list_ascii_of_string rest)) by tauto.
      apply IH in Hr. discriminate.
    + destruct (Ascii.eqb a "/") eqn:E.
      * apply Ascii.eqb_eq in E. subst a.
        split; [discriminate | intro H; exfalso; apply H; left; reflexivity].
      * apply Ascii.eqb_neq in E. split; [|reflexivity].
        intros _ [H|H]; [congruence|]. apply (proj1 IH eq_refl H).
Qed.

Lemma Name_cons (a : ascii) (rest : string) :
  Name (String a rest)
  = match rfind "/" rest with
    | Some _ => Name rest
    | None => if Ascii.eqb a "/" then rest else String a rest
    end.
Proof.
  unfold Name. simpl. destruct (rfind "/" rest) as [i|]; [reflexivity|].
  destruct (Ascii.eqb a "/"); reflexivity.
Qed.

Lemma Name_no_slash_id (path : string) : no_slash path -> Name path = path.
Proof.
  intro H. apply rfind_None in H. unfold Name. rewrite H. reflexivity.
Qed.

(** X28.  [FileUtils::Name] returns the part of the path after its last
    slash: the result contains no slash, and the path is the result
    preceded by nothing or by a directory part that ends in a slash.  A
    path without a slash is returned whole, and the name of a file put
    behind a directory and a slash is that file name. *)
Theorem Name_after_last_slash (path : string) :
  no_slash (Name path) /\
  (exists dir,
     path = (dir ++ Name path)%string /\
     (dir = EmptyString \/ exists d, dir = (d ++ "/")%string)) /\
  (no_slash path -> Name path = path) /\
  (forall dir, no_slash path -> Name (dir ++ "/" ++ path) = path).
Proof.
  split; [|split; [|split]].
  - induction path as [|a rest IH]; [intros []|].
    rewrite Name_cons. destruct (rfind "/" rest) as [i|] eqn:E; [exact IH|].
    apply rfind_None in E.
    destruct (Ascii.eqb a "/") eqn:Ea; [exact E|].
    apply Ascii.eqb_neq in Ea. intros [H|H]; [congruence | exact (E H)].
  - induction path as [|a rest IH].
    + exists EmptyString. split; [reflexivity | left; reflexivity].
    + rewrite Name_cons. destruct (rfind "/" rest) as [i|] eqn:E.
      * destruct IH as [dir [Hp Hd]]. exists (String a dir).
        split; [simpl; rewrite <- Hp; reflexivity|]. right.
        destruct Hd as [Hd|[d Hd]]; subst dir.
        -- exfalso. simpl in Hp.
           assert (Hn : no_slash rest).
           { rewrite Hp. clear. induction rest as [|b r IHr]; [intros []|].
             rewrite Name_cons.
             destruct (rfind "/" r) as [j|] eqn:Er; [exact IHr|].
             apply rfind_None in Er.
             destruct (Ascii.eqb b "/") eqn:Eb; [exact Er|].
             apply Ascii.eqb_neq in Eb.
             intros [H|H]; [congruence | exact (Er H)]. }
           apply rfind_None in Hn. congruence.
        -- exists (String a d). reflexivity.
      * destruct (Ascii.eqb a "/") eqn:Ea.
        -- apply Ascii.eqb_eq in Ea. subst a. exists "/"%string.
           split; [reflexivity|]. right. exists EmptyString. reflexivity.
        -- exists EmptyString. split; [reflexivity | left; reflexivity].
  - apply Name_no_slash_id.
  - intros dir Hn. induction dir as [|a dir IH].
    + simpl. rewrite Name_cons.
      rewrite (proj2 (rfind_None path) Hn). reflexivity.
    + simpl. rewrite Name_cons.
      destruct (rfind "/" (dir ++ String "/" path)) as [i|] eqn:E;
        [exact IH|].
      exfalso. apply rfind_None in E. apply E. clear.
      induction dir as [|b dir IHd]; simpl; [left; reflexivity|].
      right. exact IHd.
Qed.

Lemma Name_after_last_slash_witness :
  no_slash "logo.webp" /\
  Name "logo.webp" = "logo.webp"%string /\
  Name ("assets/textures" ++ "/" ++ "logo.webp") = "logo.webp"%string.
Proof.
  assert (Hn : no_slash "logo.webp").
  { unfold no_slash. simpl. intuition discriminate. }
  destruct (Name_after_last_slash "logo.webp") as [_ [_ [Hid Hdir]]].
  split; [exact Hn|]. split; [exact (Hid Hn)|].
  exact (Hdir "assets/textures"%string Hn).
Defined.

End UtilitiesFacts.

(** ** The controller list of [PieNoonGame] *)

Module ControllersFacts.
Import Controllers.
Local Open Scope Z_scope.

Lemma GetController_nat (j : nat) (cs : list Controller_ptr) :
  GetController (Z.of_nat j) cs = nth j cs None.
Proof.
  unfold GetController.
  destruct (Z.leb_spec 0 (Z.of_nat j)); [|lia].
  destruct (Z.ltb_spec (Z.of_nat j) (Z.of_nat (length cs))); simpl.
  - rewrite Nat2Z.id. reflexivity.
  - symmetry. apply nth_overflow. lia.
Qed.

Lemma GetController_negative (id : Z) (cs : list Controller_ptr) :
  id < 0 -> GetController id cs = None.
Proof.
  intro H. unfold GetController.
  destruct (Z.leb_spec 0 id); [lia | reflexivity].
Qed.

Lemma AddController_loop_Some (c : Controller_ptr)
      (slots : list Controller_ptr) :
  forall base id updated,
    AddController_loop c base slots = Some (id, updated) ->
    exists j,
      id = (base + j)%nat /\ (j < length slots)%nat /\
      nth j slots None = None /\
      (forall i, (i < j)%nat -> nth i slots None <> None) /\
      nth j updated None = c /\
      length updated = length slots /\
      (forall i, i <> j -> nth i updated None = nth i slots None).
Proof.
  induction slots as [|slot slots IH]; intros base id updated H; simpl in H;
    [discriminate|].
  destruct slot as [a|].
  - destruct (AddController_loop c (S base) slots) as [[id' up']|] eqn:E;
      [|discriminate].
    injection H as Hid Hup. subst id updated.
    destruct (IH (S base) id' up' E)
      as [j [Hj [Hlen [Hfree [Hfirst [Hget [Hl Hother]]]]]]].
    exists (S j). simpl.
    split; [lia|]. split; [lia|]. split; [exact Hfree|]. split.
    + intros [|i] Hi; [discriminate | apply Hfirst; lia].
    + split; [exact Hget|]. split; [lia|].
      intros [|i] Hi; [reflexivity | apply Hother; lia].
  - injection H as Hid Hup. subst id updated. exists 0%nat. simpl.
    split; [lia|]. split; [lia|]. split; [reflexivity|]. split.
    + intros i Hi. lia.
    + split; [reflexivity|]. split; [reflexivity|].
      intros [|i] Hi; [congruence | reflexivity].
Qed.

Lemma AddController_loop_None (c : Controller_ptr)
      (slots : list Controller_ptr) :
  forall base,
    AddController_loop c base slots = None ->
    forall i, (i < length slots)%nat -> nth i slots None <> None.
Proof.
  induction slots as [|slot slots IH]; intros base H i Hi; simpl in *;
    [lia|].
  destruct slot as [a|]; [|discriminate].
  destruct (AddController_loop c (S base) slots) as [[id' up']|] eqn:E;
    [discriminate|].
  destruct i as [|i]; [discriminate | apply (IH (S base) E); lia].
Qed.

(** X29.  [AddController] stores the controller in the first null slot of
    the list, or behind the last slot when there is none, and returns the
    index of that slot: [GetController] of the returned id gives the
    controller back, every slot before it was taken, the slot itself was
    free, the controllers under all other ids stay where they were, and
    the list grows by one slot only when no slot was free.
    [GetController] returns null for every id below zero or past the end
    of the list. *)
Theorem AddController_then_GetController (new_controller : Controller_ptr)
        (active_controllers_ : list Controller_ptr) :
  let id := fst (AddController new_controller active_controllers_) in
  let updated := snd (AddController new_controller active_controllers_) in
  GetController id updated = new_controller /\
  (0 <= id <= Z.of_nat (length active_controllers_)) /\
  GetController id active_controllers_ = None /\
  (forall j, 0 <= j < id -> GetController j active_controllers_ <> None) /\
  (forall j, j <> id ->
             GetController j updated = GetController j active_controllers_) /\
  (length updated
   = if id <? Z.of_nat (length active_controllers_)
     then length active_controllers_
     else S (length active_controllers_)) /\
  (forall j, j < 0 \/ Z.of_nat (length updated) <= j ->
             GetController j updated = None).
Proof.
  intros id updated. subst id updated. unfold AddController.
  assert (Hout : forall cs j, j < 0 \/ Z.of_nat (length cs) <= j ->
                              GetController j cs = None).
  { intros cs j [Hj|Hj]; [apply GetController_negative; exact Hj|].
    unfold GetController.
    destruct (Z.ltb_spec j (Z.of_nat (length cs))); [lia|].
    rewrite andb_false_r. reflexivity. }
  destruct (AddController_loop new_controller 0 active_controllers_)
    as [[id up]|] eqn:E; cbn [fst snd].
  - destruct (AddController_loop_Some _ _ 0%nat id up E)
      as [j [Hj [Hlen [Hfree [Hfirst [Hget [Hl Hother]]]]]]].
    simpl in Hj. subst id.
    split; [rewrite GetController_nat; exact Hget|].
    split; [lia|].
    split; [rewrite GetController_nat; exact Hfree|].
    split; [|split; [|split]].
    + intros i Hi. rewrite <- (Z2Nat.id i) by lia.
      rewrite GetController_nat. apply Hfirst. lia.
    + intros i Hi. destruct (Z_lt_le_dec i 0) as [Hneg|Hpos].
      * rewrite !GetController_negative by exact Hneg. reflexivity.
      * rewrite <- (Z2Nat.id i) by lia. rewrite !GetController_nat.
        apply Hother. lia.
    + destruct (Z.ltb_spec (Z.of_nat j)
                           (Z.of_nat (length active_controllers_)));
        [exact Hl | lia].
    + apply Hout.
  - pose proof (AddController_loop_None _ _ 0%nat E) as Hfull.
    rewrite length_app. cbn [length].
    replace (Z.of_nat (length active_controllers_ + 1) - 1)
      with (Z.of_nat (length active_controllers_)) by lia.
    split; [rewrite GetController_nat, app_nth2, Nat.sub_diag by lia;
            reflexivity|].
    split; [lia|].
    split; [apply Hout; right; lia|].
    split; [|split; [|split]].
    + intros i Hi. rewrite <- (Z2Nat.id i) by lia.
      rewrite GetController_nat. apply Hfull. lia.
    + intros i Hi. destruct (Z_lt_le_dec i 0) as [Hneg|Hpos].
      * rewrite !GetController_negative by exact Hneg. reflexivity.
      * rewrite <- (Z2Nat.id i) by lia. rewrite !GetController_nat.
        destruct (Nat.lt_ge_cases (Z.to_nat i) (length active_controllers_))
          as [Hin|Hpast].
        -- apply app_nth1. exact Hin.
        -- rewrite !nth_overflow; [reflexivity | exact Hpast |].
           rewrite length_app. simpl. lia.
    + rewrite Z.ltb_irrefl. lia.
    + intros j Hj. apply Hout. rewrite length_app. exact Hj.
Qed.

Lemma AddController_then_GetController_witness :
  let cs := [Some 10%nat; None; Some 30%nat; None] in
  AddController (Some 20%nat) cs
  = (1, [Some 10%nat; Some 20%nat; Some 30%nat; None]) /\
  GetController 1 (snd (AddController (Some 20%nat) cs)) = Some 20%nat /\
  (forall j, 0 <= j < 1 -> GetController j cs <> None) /\
  GetController (-1) (snd (AddController (Some 20%nat) cs)) = None.
Proof.
  intro cs.
  destruct (AddController_then_GetController (Some 20%nat) cs)
    as [Hget [_ [_ [Hfirst [_ [_ Hout]]]]]].
  split; [reflexivity|]. split; [exact Hget|]. split; [exact Hfirst|].
  apply Hout. left. reflexivity.
Defined.

End ControllersFacts.
